(** * simplesync: the directory synchronisation engine of [src/sync.cpp]

    A shallow embedding of [mfs::DirectorySyncer] over an explicit model of
    the part of the file system that the code observes and changes, followed
    by the properties of the copy stage, the prune stage and the
    orchestrator.

    The model in short:
    - a tree of entries stands for what a root path denotes; a symbolic
      link carries the entry it resolves to, so that [stat]-like queries
      ([fs::exists], [fs::is_regular_file]) can follow it and [lstat]-like
      ones need not; what a link points to lies outside the two trees;
    - the source tree and the destination tree are disjoint unless
      [fs::equivalent] says that the two roots are the same location;
    - a directory iterator lists a directory in the order of its listing
      and never enters a link;
    - the [try] blocks of the code are the places where an operation may
      fail: an operation fails when the tree does not allow it, or when the
      environment says so for its path; status queries do not fail;
    - [fs::copy_file] gives the copy the size and the permissions of the
      source and the time of the write, read from a clock;
    - the output lines of the program are kept as a list of events;
    - the elapsed durations of [SyncStats] are left out. *)

From Stdlib Require Import ZArith List String Bool Lia Permutation Sorted.
Import ListNotations.
Open Scope Z_scope.
Set Warnings "-register-all".

(** ** Paths *)

(** A [std::filesystem::path] is kept as its sequence of components. *)
Definition path := list string.


(** [std::distance(p.begin(), p.end())]: the number of components. *)
Definition path_distance (p : path) : Z := Z.of_nat (List.length p).

(** ** The file system as the code sees it *)

Record timespec := mkTime { tv_sec : Z; tv_nsec : Z }.

(** The fields of [struct stat] that [collect_metadata] reads, apart from the
    file type, which is carried by the constructor of the node. *)
Record stat := mkStat {
  st_perm : Z;
  st_uid : Z;
  st_gid : Z;
  st_size : Z;
  st_atim : timespec;
  st_mtim : timespec;
  st_ctim : timespec
}.

(** One entry of a directory tree.  A symbolic link carries the entry it
    resolves to (which lives outside the two trees being synchronised);
    [Dangling] is a link whose target does not exist; [Special] stands for
    fifos, sockets and devices. *)
Inductive node :=
| Reg (st : stat)
| Dir (st : stat) (entries : list (string * node))
| Lnk (st : stat) (target : node)
| Dangling (st : stat)
| Special (st : stat).

Definition node_stat (n : node) : stat :=
  match n with
  | Reg st | Dir st _ | Lnk st _ | Dangling st | Special st => st
  end.

(** File-type bits of [st_mode] (octal 0170000 and friends). *)
Definition S_IFMT : Z := 61440.
Definition S_IFREG : Z := 32768.
Definition S_IFDIR : Z := 16384.
Definition S_IFLNK : Z := 40960.
Definition S_IFIFO : Z := 4096.

Definition S_ISLNK (m : Z) : bool := Z.land m S_IFMT =? S_IFLNK.
Definition S_ISDIR (m : Z) : bool := Z.land m S_IFMT =? S_IFDIR.
Definition S_ISREG (m : Z) : bool := Z.land m S_IFMT =? S_IFREG.

Definition node_fmt (n : node) : Z :=
  match n with
  | Reg _ => S_IFREG
  | Dir _ _ => S_IFDIR
  | Lnk _ _ | Dangling _ => S_IFLNK
  | Special _ => S_IFIFO
  end.

(** [st_mode] as [lstat] reports it for an entry. *)
Definition node_mode (n : node) : Z :=
  Z.lor (node_fmt n) (Z.land (st_perm (node_stat n)) 4095).

(** [static_cast<std::uint64_t>]. *)
Definition u64 (x : Z) : Z := x mod 2 ^ 64.

(** Following symbolic links, as [stat] does. *)
Fixpoint follow (n : node) : option node :=
  match n with
  | Lnk _ t => follow t
  | Dangling _ => None
  | _ => Some n
  end.

Definition entries_of (n : node) : option (list (string * node)) :=
  match follow n with
  | Some (Dir _ cs) => Some cs
  | _ => None
  end.

Fixpoint lookup (c : string) (cs : list (string * node)) : option node :=
  match cs with
  | [] => None
  | (k, v) :: r => if String.eqb c k then Some v else lookup c r
  end.

Fixpoint replace (c : string) (v : node) (cs : list (string * node))
  : list (string * node) :=
  match cs with
  | [] => []
  | (k, x) :: r => if String.eqb c k then (k, v) :: r else (k, x) :: replace c v r
  end.

Definition delete (c : string) (cs : list (string * node)) : list (string * node) :=
  filter (fun kv => negb (String.eqb c (fst kv))) cs.

(** Path resolution below a root entry.  Links met on the way are followed;
    the last component is not ([lstat]). *)
Fixpoint lresolve (n : node) (p : path) : option node :=
  match p with
  | [] => Some n
  | c :: p' =>
      match entries_of n with
      | Some cs =>
          match lookup c cs with
          | Some ch => lresolve ch p'
          | None => None
          end
      | None => None
      end
  end.

(** The same with the last component followed too ([stat]). *)
Definition resolve (n : node) (p : path) : option node :=
  match lresolve n p with
  | Some m => follow m
  | None => None
  end.

(** [fs::exists], [fs::is_directory], [fs::is_regular_file]: all three follow
    symbolic links. *)
Definition fs_exists (n : node) (p : path) : bool :=
  match resolve n p with Some _ => true | None => false end.

Definition fs_is_directory (n : node) (p : path) : bool :=
  match resolve n p with Some (Dir _ _) => true | _ => false end.

Definition fs_is_regular_file (n : node) (p : path) : bool :=
  match resolve n p with Some (Reg _) => true | _ => false end.

(** Rebuilding a directory reached through a chain of links. *)
Fixpoint on_dir (f : list (string * node) -> option (list (string * node)))
  (n : node) : option node :=
  match n with
  | Dir st cs => option_map (Dir st) (f cs)
  | Lnk st t => option_map (Lnk st) (on_dir f t)
  | _ => None
  end.

(** Apply [g] to the listing of the directory that holds the last component
    of [p]; [None] when that directory cannot be reached. *)
Fixpoint at_parent (p : path)
  (g : string -> list (string * node) -> option (list (string * node)))
  (n : node) : option node :=
  match p with
  | [] => None
  | c :: p' =>
      match p' with
      | [] => on_dir (g c) n
      | _ :: _ =>
          on_dir (fun cs =>
                    match lookup c cs with
                    | Some ch => option_map (fun ch' => replace c ch' cs) (at_parent p' g ch)
                    | None => None
                    end) n
      end
  end.

(** The stat of an entry the program creates at time [now]. *)
Definition fresh_stat (perm size : Z) (now : timespec) : stat :=
  mkStat perm 0 0 size now now now.

(** [fs::create_directories]: every missing component is created; an
    existing component that is not a directory (after following links) is an
    error ([None] stands for the exception). *)
Fixpoint mkdirs (now : timespec) (p : path) (n : node) : option node :=
  match p with
  | [] => match follow n with Some (Dir _ _) => Some n | _ => None end
  | c :: p' =>
      on_dir (fun cs =>
                match lookup c cs with
                | Some ch => option_map (fun ch' => replace c ch' cs) (mkdirs now p' ch)
                | None =>
                    option_map (fun ch' => cs ++ [(c, ch')])
                      (mkdirs now p' (Dir (fresh_stat 493 0 now) []))
                end) n
  end.

(** Writing a regular file over an entry: a regular file is overwritten, a
    link is written through, anything else is an error. *)
Fixpoint overwrite (new : stat) (n : node) : option node :=
  match n with
  | Reg _ => Some (Reg new)
  | Lnk st t => option_map (Lnk st) (overwrite new t)
  | Dangling st => Some (Lnk st (Reg new))
  | Dir _ _ | Special _ => None
  end.

Definition write_entry (new : stat) (c : string) (cs : list (string * node))
  : option (list (string * node)) :=
  match lookup c cs with
  | None => Some (cs ++ [(c, Reg new)])
  | Some ch => option_map (fun ch' => replace c ch' cs) (overwrite new ch)
  end.

(** [fs::copy_file(from, to, overwrite_existing)]: the destination gets the
    size and permissions of the source and the time of the write. *)
Definition copy_file_to (src : stat) (now : timespec) (p : path) (n : node)
  : option node :=
  at_parent p (write_entry (fresh_stat (st_perm src) (st_size src) now)) n.

(** Number of file system objects in a subtree; links are not followed. *)
Fixpoint count_nodes (n : node) : Z :=
  match n with
  | Dir _ cs =>
      1 + (fix go (l : list (string * node)) : Z :=
             match l with
             | [] => 0
             | (_, c) :: r => count_nodes c + go r
             end) cs
  | _ => 1
  end.

Definition unlink (p : path) (n : node) : option node :=
  at_parent p (fun c cs => Some (delete c cs)) n.

(** [fs::remove]: [false] when there is nothing to remove, an error on a
    directory that is not empty. *)
Definition remove_entry (p : path) (n : node) : option (node * bool) :=
  match lresolve n p with
  | None => Some (n, false)
  | Some (Dir _ (_ :: _)) => None
  | Some _ => option_map (fun n' => (n', true)) (unlink p n)
  end.

(** [fs::remove_all]: removes the entry with everything below it and returns
    the number of objects removed. *)
Definition remove_all_entry (p : path) (n : node) : option (node * Z) :=
  match lresolve n p with
  | None => Some (n, 0)
  | Some m => option_map (fun n' => (n', count_nodes m)) (unlink p n)
  end.

(** ** Records of [include/sync.hpp] *)

Record SyncOptions := mkOptions { remove_extraneous : bool }.

Record FileMetadata := mkMeta {
  file : path;
  depth : Z;
  detail : bool;
  mode : Z;
  uid : Z;
  gid : Z;
  atime : Z;
  atime_nsec : Z;
  mtime : Z;
  mtime_nsec : Z;
  ctime : Z;
  ctime_nsec : Z;
  size : Z
}.

(** The counters of [SyncStats] and its list of synced entries.  The entry
    counters are [std::size_t]; they count entries of one tree and are kept
    as unbounded integers.  [bytes_copied] wraps as [std::uintmax_t] does.
    The four elapsed durations are wall-clock readings and are left out. *)
Record SyncStats := mkStats {
  entries_scanned : Z;
  files_copied : Z;
  files_skipped : Z;
  files_deleted : Z;
  directories_created : Z;
  bytes_copied : Z;
  synced_entries : list FileMetadata
}.

Definition empty_stats : SyncStats := mkStats 0 0 0 0 0 0 [].

(** ** The environment of a run *)

(** The operations that can fail for reasons outside the two trees
    (permissions, races), keyed by the full path they are applied to, and
    the clock that stamps what the program writes. *)
Record env := mkEnv {
  src_root : path;
  dst_root : path;
  lstat_fails : path -> bool;
  relative_fails : path -> bool;
  mkdir_fails : path -> bool;
  copy_fails : path -> bool;
  remove_fails : path -> bool;
  clock : nat -> timespec
}.

(** The lines the program writes to [std::cout] and [std::cerr]. *)
Inductive event :=
| EvBanner (step total : Z)
| EvSkipPrune (step total : Z)
| EvCreatedRoot (p : path)
| EvLstatError (p : path)
| EvSkipSymlink (p : path)
| EvWarnRelative (p : path)
| EvCreatedDirectory (p : path)
| EvWarnCreateDirectory (p : path)
| EvSkipNonRegular (p : path)
| EvReplaceNonRegular (p : path)
| EvWarnRemoveNonRegular (p : path)
| EvReplaceSymlink (p : path)
| EvWarnRemoveSymlink (p : path)
| EvWarnParent (p : path)
| EvCopied (from to : path) (bytes : Z)
| EvWarnCopy (from to : path)
| EvSkipDestSymlink (p : path)
| EvWarnRelativeDest (p : path)
| EvRemoveDirectory (p : path)
| EvRemoveFile (p : path)
| EvWarnRemove (p : path).

(** What a stage threads through: the destination tree, the statistics, the
    output so far and the number of writes made (the index of the clock). *)
Record state := mkState {
  dst : node;
  stats : SyncStats;
  out : list event;
  ticks : nat
}.

Definition say (e : event) (s : state) : state :=
  mkState (dst s) (stats s) (out s ++ [e]) (ticks s).

Definition set_dst (d : node) (s : state) : state :=
  mkState d (stats s) (out s) (S (ticks s)).

Definition set_stats (f : SyncStats -> SyncStats) (s : state) : state :=
  mkState (dst s) (f (stats s)) (out s) (ticks s).

Definition now (E : env) (s : state) : timespec := clock E (ticks s).

Definition inc_scanned (t : SyncStats) : SyncStats :=
  mkStats (entries_scanned t + 1) (files_copied t) (files_skipped t) (files_deleted t)
    (directories_created t) (bytes_copied t) (synced_entries t).

Definition inc_skipped (t : SyncStats) : SyncStats :=
  mkStats (entries_scanned t) (files_copied t) (files_skipped t + 1) (files_deleted t)
    (directories_created t) (bytes_copied t) (synced_entries t).

Definition add_deleted (k : Z) (t : SyncStats) : SyncStats :=
  mkStats (entries_scanned t) (files_copied t) (files_skipped t) (files_deleted t + k)
    (directories_created t) (bytes_copied t) (synced_entries t).

(** [++stats.directories_created; stats.synced_entries.push_back(src_meta)] *)
Definition record_directory (m : FileMetadata) (t : SyncStats) : SyncStats :=
  mkStats (entries_scanned t) (files_copied t) (files_skipped t) (files_deleted t)
    (directories_created t + 1) (bytes_copied t) (synced_entries t ++ [m]).

(** [++stats.files_copied; stats.bytes_copied += source_size;
    stats.synced_entries.push_back(src_meta)] *)
Definition record_copy (m : FileMetadata) (t : SyncStats) : SyncStats :=
  mkStats (entries_scanned t) (files_copied t + 1) (files_skipped t) (files_deleted t)
    (directories_created t) (u64 (bytes_copied t + size m)) (synced_entries t ++ [m]).

(** ** [collect_metadata] *)

(** The record filled from the [struct stat] of an entry. *)
Definition metadata_of (p : path) (d : Z) (n : node) : FileMetadata :=
  let st := node_stat n in
  mkMeta p d true
    (u64 (node_mode n)) (u64 (st_uid st)) (u64 (st_gid st))
    (u64 (tv_sec (st_atim st))) (u64 (tv_nsec (st_atim st)))
    (u64 (tv_sec (st_mtim st))) (u64 (tv_nsec (st_mtim st)))
    (u64 (tv_sec (st_ctim st))) (u64 (tv_nsec (st_ctim st)))
    (u64 (st_size st)).

(** [lstat] on the entry found at [root/rel]; [None] is the [false] result,
    after which the caller logs the error. *)
Definition collect_metadata (E : env) (root : path) (tree : node) (rel : path) (d : Z)
  : option FileMetadata :=
  if lstat_fails E (root ++ rel) then None
  else match lresolve tree rel with
       | Some n => Some (metadata_of (root ++ rel) d n)
       | None => None
       end.

(** The same for the entry the directory iterator is standing on. *)
Definition collect_entry (E : env) (p : path) (d : Z) (e : node) : option FileMetadata :=
  if lstat_fails E p then None else Some (metadata_of p d e).

(** [directory_entry::is_directory()], which follows links. *)
Definition entry_is_directory (e : node) : bool :=
  match follow e with Some (Dir _ _) => true | _ => false end.

(** [it.depth()] of the entry at relative path [rel]. *)
Definition iter_depth (rel : path) : Z := Z.of_nat (List.length rel) - 1.

(** ** The copy stage: [DirectorySyncer::copy_from_source] *)

(** The freshness comparison of a regular file with its destination. *)
Definition size_differs (s d : FileMetadata) : bool := negb (size s =? size d).

Definition time_newer (s d : FileMetadata) : bool :=
  (mtime s >? mtime d) || ((mtime s =? mtime d) && (mtime_nsec s >? mtime_nsec d)).

(** A [try] block around one file system call: the call throws when the
    environment makes it fail or when the tree does not allow it. *)
Definition try_op {A : Type} (fails : bool) (r : option A) : option A :=
  if fails then None else r.

(** The computation of [should_copy] for a regular source file.  The second
    component is [None] where the code leaves the iteration with
    [continue]. *)
Definition decide_copy (E : env) (rel : path) (src_meta : FileMetadata) (s : state)
  : state * option bool :=
  let dest_path := dst_root E ++ rel in
  if negb (fs_exists (dst s) rel) then (s, Some true)
  else if negb (fs_is_regular_file (dst s) rel) then
    let s1 := say (EvReplaceNonRegular dest_path) s in
    match try_op (remove_fails E dest_path) (remove_all_entry rel (dst s1)) with
    | Some (d, _) => (set_dst d s1, Some true)
    | None => (say (EvWarnRemoveNonRegular dest_path) s1, None)
    end
  else
    match collect_metadata E (dst_root E) (dst s) rel (iter_depth rel) with
    | None => (say (EvLstatError dest_path) s, Some true)
    | Some dest_meta =>
        if S_ISLNK (mode dest_meta) then
          let s1 := say (EvReplaceSymlink dest_path) s in
          match try_op (remove_fails E dest_path) (remove_entry rel (dst s1)) with
          | Some (d, _) => (set_dst d s1, Some true)
          | None => (say (EvWarnRemoveSymlink dest_path) s1, None)
          end
        else (s, Some (size_differs src_meta dest_meta || time_newer src_meta dest_meta))
    end.

(** The [if (should_copy)] branch: parent directories, then the copy. *)
Definition perform_copy (E : env) (rel : path) (e : node) (src_meta : FileMetadata)
  (s : state) : state :=
  let src_path := src_root E ++ rel in
  let dest_path := dst_root E ++ rel in
  let parent := removelast rel in
  match try_op (mkdir_fails E (dst_root E ++ parent)) (mkdirs (now E s) parent (dst s)) with
  | None => say (EvWarnParent dest_path) s
  | Some d1 =>
      let s1 := set_dst d1 s in
      match try_op (copy_fails E dest_path)
              (copy_file_to (node_stat e) (now E s1) rel (dst s1)) with
      | Some d2 =>
          set_stats (record_copy src_meta)
            (say (EvCopied src_path dest_path (size src_meta)) (set_dst d2 s1))
      | None => say (EvWarnCopy src_path dest_path) s1
      end
  end.

(** The body of the loop for a source directory. *)
Definition copy_directory (E : env) (rel : path) (src_meta : FileMetadata) (s : state)
  : state * bool :=
  let dest_path := dst_root E ++ rel in
  if negb (fs_exists (dst s) rel) then
    match try_op (mkdir_fails E dest_path) (mkdirs (now E s) rel (dst s)) with
    | Some d =>
        (set_stats (record_directory src_meta)
           (say (EvCreatedDirectory dest_path) (set_dst d s)), false)
    | None => (say (EvWarnCreateDirectory dest_path) s, true)
    end
  else (s, false).

(** One iteration of the loop on the entry [e] found at [source/rel].  The
    boolean tells whether [disable_recursion_pending] was called. *)
Definition copy_entry (E : env) (rel : path) (e : node) (s0 : state) : state * bool :=
  let s := set_stats inc_scanned s0 in
  let src_path := src_root E ++ rel in
  match collect_entry E src_path (iter_depth rel) e with
  | None => (say (EvLstatError src_path) s, entry_is_directory e)
  | Some src_meta =>
      if S_ISLNK (mode src_meta) then
        (set_stats inc_skipped (say (EvSkipSymlink src_path) s), true)
      else if relative_fails E src_path then
        (say (EvWarnRelative src_path) s, entry_is_directory e)
      else if S_ISDIR (mode src_meta) then copy_directory E rel src_meta s
      else if negb (S_ISREG (mode src_meta)) then
        (set_stats inc_skipped (say (EvSkipNonRegular src_path) s), false)
      else
        match decide_copy E rel src_meta s with
        | (s1, None) => (s1, false)
        | (s1, Some true) => (perform_copy E rel e src_meta s1, false)
        | (s1, Some false) => (set_stats inc_skipped s1, false)
        end
  end.

(** [recursive_directory_iterator]: pre-order, entering a directory (never a
    link) unless recursion was disabled on it. *)
Fixpoint copy_visit (E : env) (rel : path) (e : node) (s : state) {struct e} : state :=
  let '(s1, disabled) := copy_entry E rel e s in
  match e with
  | Dir _ cs =>
      if disabled then s1
      else (fix walk (l : list (string * node)) (s : state) : state :=
              match l with
              | [] => s
              | (name, c) :: r => walk r (copy_visit E (rel ++ [name]) c s)
              end) cs s1
  | _ => s1
  end.

Fixpoint copy_walk (E : env) (rel : path) (l : list (string * node)) (s : state) : state :=
  match l with
  | [] => s
  | (name, c) :: r => copy_walk E rel r (copy_visit E (rel ++ [name]) c s)
  end.

Definition copy_from_source (E : env) (source : node) (s : state) : state :=
  match entries_of source with
  | Some cs => copy_walk E [] cs s
  | None => s
  end.

(** ** The prune stage: [DirectorySyncer::prune_destination] *)

Record RemovalCandidate := mkCandidate {
  cpath : path;
  is_directory : bool;
  cdepth : Z
}.

(** One iteration of the discovery loop on the entry [e] found at
    [destination/rel]: the output, the candidate if the entry becomes one,
    and whether [disable_recursion_pending] was called. *)
Definition prune_entry (E : env) (source : node) (rel : path) (e : node)
  : list event * option RemovalCandidate * bool :=
  let entry_path := dst_root E ++ rel in
  match collect_entry E entry_path (iter_depth rel) e with
  | None => ([EvLstatError entry_path], None, entry_is_directory e)
  | Some dest_meta =>
      if S_ISLNK (mode dest_meta) then ([EvSkipDestSymlink entry_path], None, false)
      else if relative_fails E entry_path then
        ([EvWarnRelativeDest entry_path], None, entry_is_directory e)
      else if fs_exists source rel then ([], None, false)
      else ([], Some (mkCandidate entry_path (S_ISDIR (mode dest_meta))
                        (path_distance entry_path)), false)
  end.

Definition discovery := (list event * list RemovalCandidate)%type.

Definition note (r : list event * option RemovalCandidate) (a : discovery) : discovery :=
  (fst a ++ fst r,
   match snd r with Some c => snd a ++ [c] | None => snd a end).

Fixpoint prune_visit (E : env) (source : node) (rel : path) (e : node) (a : discovery)
  {struct e} : discovery :=
  let '(r, disabled) := prune_entry E source rel e in
  let a1 := note r a in
  match e with
  | Dir _ cs =>
      if disabled then a1
      else (fix walk (l : list (string * node)) (a : discovery) : discovery :=
              match l with
              | [] => a
              | (name, c) :: r => walk r (prune_visit E source (rel ++ [name]) c a)
              end) cs a1
  | _ => a1
  end.

Fixpoint prune_walk (E : env) (source : node) (rel : path) (l : list (string * node))
  (a : discovery) : discovery :=
  match l with
  | [] => a
  | (name, c) :: r => prune_walk E source rel r (prune_visit E source (rel ++ [name]) c a)
  end.

Definition discover (E : env) (source destination : node) : discovery :=
  match entries_of destination with
  | Some cs => prune_walk E source [] cs ([], [])
  | None => ([], [])
  end.

(** [std::sort] with the comparator [lhs.depth > rhs.depth], as an insertion
    sort: deepest first. *)
Fixpoint insert_candidate (c : RemovalCandidate) (l : list RemovalCandidate)
  : list RemovalCandidate :=
  match l with
  | [] => [c]
  | d :: r => if cdepth c >? cdepth d then c :: d :: r else d :: insert_candidate c r
  end.

Definition sort_candidates (l : list RemovalCandidate) : list RemovalCandidate :=
  fold_right insert_candidate [] l.

(** The path of a candidate relative to the destination root. *)
Definition rel_of (E : env) (p : path) : path := skipn (List.length (dst_root E)) p.

(** The body of the removal loop. *)
Definition remove_candidate (E : env) (c : RemovalCandidate) (s : state) : state :=
  let rel := rel_of E (cpath c) in
  if is_directory c then
    let s1 := say (EvRemoveDirectory (cpath c)) s in
    match try_op (remove_fails E (cpath c)) (remove_all_entry rel (dst s1)) with
    | Some (d, removed) => set_stats (add_deleted removed) (set_dst d s1)
    | None => say (EvWarnRemove (cpath c)) s1
    end
  else
    let s1 := say (EvRemoveFile (cpath c)) s in
    match try_op (remove_fails E (cpath c)) (remove_entry rel (dst s1)) with
    | Some (d, true) => set_stats (add_deleted 1) (set_dst d s1)
    | Some (d, false) => set_dst d s1
    | None => say (EvWarnRemove (cpath c)) s1
    end.

Definition remove_candidates (E : env) (l : list RemovalCandidate) (s : state) : state :=
  fold_left (fun s c => remove_candidate E c s) l s.

Definition prune_destination (E : env) (source : node) (s : state) : state :=
  let '(lines, candidates) := discover E source (dst s) in
  let s1 := mkState (dst s) (stats s) (out s ++ lines) (ticks s) in
  remove_candidates E (sort_candidates candidates) s1.

(** ** The orchestrator: [DirectorySyncer::synchronize] *)

(** What the two root paths denote when the run starts: the entry each one
    resolves to, if any, and whether [fs::equivalent] finds them to be the
    same location.  Roots that are different locations are taken to be
    disjoint trees. *)
Record world := mkWorld {
  w_src : option node;
  w_dst : option node;
  w_same : bool
}.

Inductive failure :=
| SourceMissing
| SourceNotDirectory
| DestinationNotDirectory
| SameLocation
| FilesystemError.

(** A run either returns its statistics (here with the destination tree it
    leaves and its output) or propagates an exception. *)
Inductive outcome :=
| Returned (t : SyncStats) (d : node) (o : list event)
| Thrown (f : failure) (o : list event).

Definition root_exists (r : option node) : bool :=
  match r with Some n => fs_exists n [] | None => false end.

Definition root_is_directory (r : option node) : bool :=
  match r with Some n => fs_is_directory n [] | None => false end.

(** [validate_inputs]: [None] when nothing is thrown. *)
Definition validate_inputs (w : world) : option failure :=
  if negb (root_exists (w_src w)) then Some SourceMissing
  else if negb (root_is_directory (w_src w)) then Some SourceNotDirectory
  else if root_exists (w_dst w) && negb (root_is_directory (w_dst w))
       then Some DestinationNotDirectory
  else None.

(** [ensure_destination_root]: the destination tree after the call and the
    line printed, or [None] when [create_directories] throws.  A root that
    had to be created is a new location. *)
Definition ensure_destination_root (E : env) (w : world)
  : option (node * list event * bool) :=
  if negb (root_exists (w_dst w)) then
    match w_dst w with
    | Some _ => None
    | None =>
        if mkdir_fails E (dst_root E) then None
        else Some (Dir (fresh_stat 493 0 (clock E 0)) [], [EvCreatedRoot (dst_root E)], false)
    end
  else
    match w_dst w with
    | Some d => Some (d, [], w_same w)
    | None => None
    end.

Definition synchronize (E : env) (options : SyncOptions) (w : world) : outcome :=
  let total_steps := if remove_extraneous options then 4 else 3 in
  let o1 := [EvBanner 1 total_steps] in
  match validate_inputs w with
  | Some f => Thrown f o1
  | None =>
      let o2 := o1 ++ [EvBanner 2 total_steps] in
      match ensure_destination_root E w with
      | None => Thrown FilesystemError o2
      | Some (d, lines, equivalent) =>
          if equivalent then Thrown SameLocation (o2 ++ lines)
          else
            match w_src w with
            | None => Thrown SourceMissing (o2 ++ lines)
            | Some source =>
                let s0 := mkState d empty_stats (o2 ++ lines ++ [EvBanner 3 total_steps]) 1 in
                let s1 := copy_from_source E source s0 in
                let s2 :=
                  if remove_extraneous options
                  then prune_destination E source (say (EvBanner 4 total_steps) s1)
                  else say (EvSkipPrune 3 total_steps) s1 in
                Returned (stats s2) (dst s2) (out s2)
            end
      end
  end.


(** ** Predicates used in the statements *)

(** The synced-entries list is as long as the two counters that go with it. *)
Definition balanced (t : SyncStats) : Prop :=
  Z.of_nat (List.length (synced_entries t)) = files_copied t + directories_created t.

(** What one step may do to the list and the two counters: nothing, or one
    append together with one increment of exactly one counter. *)
Definition step_delta (t t' : SyncStats) : Prop :=
  (synced_entries t' = synced_entries t /\
   files_copied t' = files_copied t /\
   directories_created t' = directories_created t) \/
  (exists m, synced_entries t' = synced_entries t ++ [m] /\
             files_copied t' = files_copied t + 1 /\
             directories_created t' = directories_created t) \/
  (exists m, synced_entries t' = synced_entries t ++ [m] /\
             files_copied t' = files_copied t /\
             directories_created t' = directories_created t + 1).

(** The list and the two counters are the same in both. *)
Definition same_synced (t t' : SyncStats) : Prop :=
  synced_entries t' = synced_entries t /\
  files_copied t' = files_copied t /\
  directories_created t' = directories_created t.

(** ** The scenario of the test suite

    A source with [file1.txt], [dirA/file2.txt] and [dirA/subdir/file3.txt];
    a destination with a stale [file1.txt], an up-to-date [dirA/file2.txt],
    and the two extra files [extra.txt] and [dirA/subdir/obsolete.txt]. *)

Definition at_time (sec : Z) : timespec := mkTime sec 0.

Definition plain_file (bytes sec : Z) : node :=
  Reg (mkStat 420 1000 1000 bytes (at_time sec) (at_time sec) (at_time sec)).

Definition plain_dir (l : list (string * node)) : node :=
  Dir (mkStat 493 1000 1000 4096 (at_time 1) (at_time 1) (at_time 1)) l.


Definition never (_ : path) : bool := false.

Definition scenario_env : env :=
  mkEnv ["src"%string] ["dst"%string] never never never never never
    (fun k => at_time (1000 + Z.of_nat k)).

Definition scenario_source : node :=
  plain_dir
    [("file1.txt"%string, plain_file 1 200);
     ("dirA"%string,
      plain_dir [("file2.txt"%string, plain_file 5 100);
                 ("subdir"%string, plain_dir [("file3.txt"%string, plain_file 7 100)])])].

Definition scenario_destination : node :=
  plain_dir
    [("file1.txt"%string, plain_file 1 100);
     ("dirA"%string,
      plain_dir [("file2.txt"%string, plain_file 5 100);
                 ("subdir"%string, plain_dir [("obsolete.txt"%string, plain_file 3 50)])]);
     ("extra.txt"%string, plain_file 2 50)].

Definition scenario_world : world :=
  mkWorld (Some scenario_source) (Some scenario_destination) false.










(** ** Aborted runs *)

Definition thrown (r : outcome) : bool :=
  match r with Thrown _ _ => true | Returned _ _ _ => false end.





(** ** Failures on single entries *)



(** ** The traversal order and the synced entries *)

(** The entries that the iterator can stand on below [e], with their full
    paths, in the order of the traversal (pre-order; links are not
    entered). *)
Fixpoint listing (p : path) (e : node) : list (path * node) :=
  (p, e) ::
  match e with
  | Dir _ cs =>
      (fix below (l : list (string * node)) : list (path * node) :=
         match l with
         | [] => []
         | (name, c) :: r => listing (p ++ [name]) c ++ below r
         end) cs
  | _ => []
  end.

Fixpoint listing_children (p : path) (l : list (string * node)) : list (path * node) :=
  match l with
  | [] => []
  | (name, c) :: r => listing (p ++ [name]) c ++ listing_children p r
  end.

Definition source_listing (E : env) (source : node) : list (path * node) :=
  match entries_of source with
  | Some cs => listing_children (src_root E) cs
  | None => []
  end.












(** ** The stages of a run that returns *)

Definition total_steps (options : SyncOptions) : Z :=
  if remove_extraneous options then 4 else 3.

(** The state in which the copy stage starts. *)
Definition start_state (options : SyncOptions) (d : node) (lines : list event) : state :=
  mkState d empty_stats
    ([EvBanner 1 (total_steps options)] ++ [EvBanner 2 (total_steps options)]
       ++ lines ++ [EvBanner 3 (total_steps options)]) 1.

(** The state in which the prune stage starts or is skipped. *)
Definition after_copy (E : env) (options : SyncOptions) (source d : node)
  (lines : list event) : state :=
  copy_from_source E source (start_state options d lines).

Definition after_run (E : env) (options : SyncOptions) (source d : node)
  (lines : list event) : state :=
  if remove_extraneous options
  then prune_destination E source
         (say (EvBanner 4 (total_steps options)) (after_copy E options source d lines))
  else say (EvSkipPrune 3 (total_steps options)) (after_copy E options source d lines).

(** ** Induction over trees *)

Section NodeInduction.
Variable P : node -> Prop.
Hypothesis Hreg : forall st, P (Reg st).
Hypothesis Hdir : forall st cs, Forall (fun kv => P (snd kv)) cs -> P (Dir st cs).
Hypothesis Hlnk : forall st t, P t -> P (Lnk st t).
Hypothesis Hdangling : forall st, P (Dangling st).
Hypothesis Hspecial : forall st, P (Special st).

Fixpoint node_induction (n : node) : P n :=
  match n with
  | Reg st => Hreg st
  | Dir st cs =>
      Hdir st cs
        ((fix all (l : list (string * node)) : Forall (fun kv => P (snd kv)) l :=
            match l with
            | [] => Forall_nil _
            | kv :: r => Forall_cons kv (node_induction (snd kv)) (all r)
            end) cs)
  | Lnk st t => Hlnk st t (node_induction t)
  | Dangling st => Hdangling st
  | Special st => Hspecial st
  end.
End NodeInduction.

(** ** Entries of a tree and what may change about them *)




Definition is_dir (n : node) : bool :=
  match n with Dir _ _ => true | _ => false end.

(** The type and the [stat] of an entry, without what lies below or behind
    it. *)
Definition shallow (n : node) : Z * stat := (node_fmt n, node_stat n).

(** [p] is [q] or an ancestor of [q]. *)
Definition prefix (p q : path) : Prop := exists rest, q = p ++ rest.


(** [m'] is [m] up to what lies below or behind it; it still resolves if
    [m] did, and to a directory if [m] did. *)
Definition kept (m m' : node) : Prop :=
  shallow m' = shallow m /\
  (follow m <> None -> follow m' <> None) /\
  (entries_of m <> None -> entries_of m' <> None).

(** The entry at [q] is the same in [n] and [n'] up to what lies below it;
    [exact] asks for the very same entry. *)
Definition same_at (exact : Prop) (n n' : node) (q : path) : Prop :=
  match lresolve n q, lresolve n' q with
  | Some m, Some m' => kept m m' /\ (exact -> m' = m)
  | None, None => True
  | _, _ => False
  end.

(** An operation on the listing of a directory that leaves every other name
    alone. *)
Definition local_change
  (g : string -> list (string * node) -> option (list (string * node))) : Prop :=
  forall c cs cs' k, g c cs = Some cs' -> k <> c -> lookup k cs' = lookup k cs.

(** What [fs::remove] and [fs::remove_all] at [p] make of a tree when they
    do not throw: nothing was there, or the entry is unlinked. *)
Definition removed (p : path) (n n' : node) : Prop :=
  (lresolve n p = None /\ n' = n) \/ unlink p n = Some n'.







(** The parts of an outcome; the defaults stand for a run that threw. *)
Definition outcome_stats (r : outcome) : SyncStats :=
  match r with Returned t _ _ => t | Thrown _ _ => empty_stats end.

Definition outcome_dst (r : outcome) : node :=
  match r with Returned _ d _ => d | Thrown _ _ => Dir (fresh_stat 0 0 (mkTime 0 0)) [] end.

Definition outcome_out (r : outcome) : list event :=
  match r with Returned _ _ o => o | Thrown _ o => o end.

Definition scenario_outcome : outcome :=
  synchronize scenario_env (mkOptions true) scenario_world.

(** What is at [q] in [n] is still there in [n'], with its type and
    [stat]. *)
Definition keeps (n n' : node) (q : path) : Prop :=
  forall m, lresolve n q = Some m -> exists m', lresolve n' q = Some m' /\ kept m m'.

(** [q] is at or below the path of a regular file that the traversal of the
    source meets. *)
Definition replaced_by_source (E : env) (source : node) (q : path) : Prop :=
  exists p st, prefix p q /\ In (src_root E ++ p, Reg st) (source_listing E source).













(** ** A second run *)


(** The lines that go to [std::cerr]. *)
Definition is_warning (ev : event) : bool :=
  match ev with
  | EvLstatError _ | EvWarnRelative _ | EvWarnCreateDirectory _
  | EvWarnRemoveNonRegular _ | EvWarnRemoveSymlink _ | EvWarnParent _
  | EvWarnCopy _ _ | EvWarnRelativeDest _ | EvWarnRemove _ => true
  | _ => false
  end.

Definition warnings (o : list event) : nat := List.length (filter is_warning o).













(** The environment of the scenario with a clock that stands at one
    reading. *)
Definition steady_env : env :=
  mkEnv ["src"%string] ["dst"%string] never never never never never
    (fun _ => at_time 1000).

Definition steady_outcome : outcome :=
  synchronize steady_env (mkOptions true) scenario_world.

(** ** The command line: [main] of [src/main.cpp] *)

(** What [main] does with its arguments: print the usage and return a
    code, complain about the positional arguments, or run the syncer. *)
Inductive command :=
| Usage (code : Z)
| BadArguments
| Run (options : SyncOptions) (source destination : string).

Definition is_keep_extra (arg : string) : bool := String.eqb arg "--keep-extra".

Definition is_help (arg : string) : bool :=
  String.eqb arg "--help" || String.eqb arg "-h".

(** The loop over [argv[1..]]: [None] where the loop returns 0 on a help
    flag, otherwise the flag and the positional arguments in order. *)
Fixpoint scan_arguments (args : list string) (keep_extra : bool) (positional : list string)
  : option (bool * list string) :=
  match args with
  | [] => Some (keep_extra, positional)
  | arg :: rest =>
      if is_keep_extra arg then scan_arguments rest true positional
      else if is_help arg then None
      else scan_arguments rest keep_extra (positional ++ [arg])
  end.

(** [args] is [argv] without the program name, so [argc < 3] reads
    [length args < 2]. *)
Definition parse_arguments (args : list string) : command :=
  if (Z.of_nat (List.length args) + 1 <? 3) then Usage 1
  else
    match scan_arguments args false [] with
    | None => Usage 0
    | Some (keep_extra, positional) =>
        match positional with
        | [source; destination] => Run (mkOptions (negb keep_extra)) source destination
        | _ => BadArguments
        end
    end.

(** The exit code of [main].  [view] gives, for the two path arguments, the
    environment and the world that the process finds. *)
Definition main (view : string -> string -> env * world) (args : list string) : Z :=
  match parse_arguments args with
  | Usage code => code
  | BadArguments => 1
  | Run options source destination =>
      match synchronize (fst (view source destination)) options
              (snd (view source destination)) with
      | Returned _ _ _ => 0
      | Thrown _ _ => 1
      end
  end.

Definition scenario_view (_ _ : string) : env * world := (scenario_env, scenario_world).

(** ** Which failure a run reports *)




(** ** The range of the collected fields *)

Definition is_u64 (x : Z) : Prop := 0 <= x < 2 ^ 64.

Definition fields_in_range (m : FileMetadata) : Prop :=
  is_u64 (mode m) /\ is_u64 (uid m) /\ is_u64 (gid m) /\ is_u64 (size m) /\
  is_u64 (atime m) /\ is_u64 (atime_nsec m) /\ is_u64 (mtime m) /\
  is_u64 (mtime_nsec m) /\ is_u64 (ctime m) /\ is_u64 (ctime_nsec m).


(** ** Accounting *)

(** Every scanned entry is counted at most once as copied, skipped or
    created. *)
Definition accounted (t : SyncStats) : Prop :=
  0 <= files_copied t /\ 0 <= files_skipped t /\ 0 <= directories_created t /\
  files_copied t + files_skipped t + directories_created t <= entries_scanned t.

(** What one iteration adds to the counters: one scanned entry, and [a]
    copied, [b] skipped, [c] created. *)
Definition adds (a b c : Z) (t t' : SyncStats) : Prop :=
  entries_scanned t' = entries_scanned t + 1 /\
  files_copied t' = files_copied t + a /\
  files_skipped t' = files_skipped t + b /\
  directories_created t' = directories_created t + c.

(** The prune stage changes no counter but [files_deleted]. *)
Definition same_but_deleted (t t' : SyncStats) : Prop :=
  entries_scanned t' = entries_scanned t /\
  files_copied t' = files_copied t /\
  files_skipped t' = files_skipped t /\
  directories_created t' = directories_created t /\
  bytes_copied t' = bytes_copied t /\
  synced_entries t' = synced_entries t /\
  files_deleted t <= files_deleted t'.

(** Entries of a listing, its directories, and the entries that are not
    directories. *)
Definition entries_in (l : list (path * node)) : Z := Z.of_nat (List.length l).

Definition directories_in (l : list (path * node)) : Z :=
  Z.of_nat (List.length (filter (fun pe => is_dir (snd pe)) l)).

Definition others_in (l : list (path * node)) : Z :=
  Z.of_nat (List.length (filter (fun pe => negb (is_dir (snd pe))) l)).

(** What the iterations over the part [l] of the source listing add to the
    counters, and what they add when no warning is printed. *)
Definition counts (l : list (path * node)) (s s' : state) : Prop :=
  (warnings (out s) <= warnings (out s'))%nat /\
  exists n a b c,
    0 <= a /\ 0 <= b /\ 0 <= c /\ a + b + c <= n /\
    n <= entries_in l /\ a + b <= others_in l /\ c <= directories_in l /\
    entries_scanned (stats s') = entries_scanned (stats s) + n /\
    files_copied (stats s') = files_copied (stats s) + a /\
    files_skipped (stats s') = files_skipped (stats s) + b /\
    directories_created (stats s') = directories_created (stats s) + c /\
    (warnings (out s') = warnings (out s) -> n = entries_in l /\ a + b = others_in l).

(** ** The byte total *)

(** Sum of the sizes of the regular files among the recorded entries. *)
Definition regular_bytes (l : list FileMetadata) : Z :=
  fold_right (fun m acc => (if S_ISREG (mode m) then size m else 0) + acc) 0 l.

Definition bytes_match (t : SyncStats) : Prop :=
  bytes_copied t = u64 (regular_bytes (synced_entries t)).

(** ** A report without work *)

(** Between [s] and [s'] the warnings and the counters of copies and of
    created directories only grow, and the destination is left as it was
    unless one of them grew. *)
Definition quiet (s s' : state) : Prop :=
  (warnings (out s) <= warnings (out s'))%nat /\
  files_copied (stats s) <= files_copied (stats s') /\
  directories_created (stats s) <= directories_created (stats s') /\
  (warnings (out s') = warnings (out s) ->
   files_copied (stats s') = files_copied (stats s) ->
   directories_created (stats s') = directories_created (stats s) ->
   dst s' = dst s).

(** ** What the stages read of the state *)


(** ** A destination that holds nothing yet *)







(** * Properties *)

(** ** File types and modes *)

Lemma fmt_of_mode (n : node) : Z.land (u64 (node_mode n)) S_IFMT = node_fmt n.
Proof.
  unfold u64, node_mode.
  rewrite <- Z.land_ones by lia.
  rewrite <- Z.land_assoc.
  change (Z.land (Z.ones 64) S_IFMT) with S_IFMT.
  rewrite Z.land_lor_distr_l, <- Z.land_assoc.
  change (Z.land 4095 S_IFMT) with 0.
  rewrite Z.land_0_r, Z.lor_0_r.
  destruct n; reflexivity.
Qed.

Lemma islnk_metadata (p : path) (d : Z) (n : node) :
  S_ISLNK (mode (metadata_of p d n)) =
  match n with Lnk _ _ | Dangling _ => true | _ => false end.
Proof.
  unfold S_ISLNK; simpl mode; rewrite fmt_of_mode; destruct n; reflexivity.
Qed.

Lemma isdir_metadata (p : path) (d : Z) (n : node) :
  S_ISDIR (mode (metadata_of p d n)) =
  match n with Dir _ _ => true | _ => false end.
Proof.
  unfold S_ISDIR; simpl mode; rewrite fmt_of_mode; destruct n; reflexivity.
Qed.

Lemma isreg_metadata (p : path) (d : Z) (n : node) :
  S_ISREG (mode (metadata_of p d n)) =
  match n with Reg _ => true | _ => false end.
Proof.
  unfold S_ISREG; simpl mode; rewrite fmt_of_mode; destruct n; reflexivity.
Qed.

(** ** The freshness rule *)

(** The comparison of the code says what the rule says: a size that differs,
    or a source time that is later in the order on (seconds, nanoseconds). *)
Lemma needs_refresh_iff (s d : FileMetadata) :
  size_differs s d || time_newer s d = true <->
  (size s <> size d \/ mtime s > mtime d \/
   (mtime s = mtime d /\ mtime_nsec s > mtime_nsec d)).
Proof.
  unfold size_differs, time_newer.
  rewrite !orb_true_iff, andb_true_iff, negb_true_iff, Z.eqb_neq, Z.eqb_eq.
  rewrite !Z.gtb_gt. tauto.
Qed.

Lemma no_refresh_when_not_newer (s d : FileMetadata) :
  size s = size d ->
  (mtime s < mtime d \/ (mtime s = mtime d /\ mtime_nsec s <= mtime_nsec d)) ->
  size_differs s d || time_newer s d = false.
Proof.
  intros Hs Ht.
  destruct (size_differs s d || time_newer s d) eqn:Hb; [|reflexivity].
  apply needs_refresh_iff in Hb. lia.
Qed.






(** ** Induction over the traversal *)

Lemma copy_visit_eq (E : env) (rel : path) (e : node) (s : state) :
  copy_visit E rel e s =
  let '(s1, disabled) := copy_entry E rel e s in
  match e with
  | Dir _ cs => if disabled then s1 else copy_walk E rel cs s1
  | _ => s1
  end.
Proof.
  destruct e; try reflexivity.
  simpl. destruct (copy_entry E rel (Dir st entries) s) as [s1 disabled].
  destruct disabled; [reflexivity|].
  generalize s1. induction entries as [|[name c] r IH]; intros s2; [reflexivity|].
  simpl. apply IH.
Qed.

(** Whatever relates the states around every iteration, and is reflexive
    and transitive, relates the states around the whole walk. *)
Section CopyStageRelation.
Variable E : env.
Variable R : state -> state -> Prop.
Hypothesis R_refl : forall s, R s s.
Hypothesis R_trans : forall s1 s2 s3, R s1 s2 -> R s2 s3 -> R s1 s3.
Hypothesis R_step : forall rel e s, R s (fst (copy_entry E rel e s)).

Lemma copy_walk_rel_of_visits (rel : path) (cs : list (string * node)) :
  Forall (fun kv => forall rel s, R s (copy_visit E rel (snd kv) s)) cs ->
  forall s, R s (copy_walk E rel cs s).
Proof.
  induction 1 as [|[name c] r Hc _ IH]; intros s; simpl; [apply R_refl|].
  eapply R_trans; [apply Hc|apply IH].
Qed.

Lemma copy_visit_rel (e : node) : forall rel s, R s (copy_visit E rel e s).
Proof.
  induction e using node_induction; intros rel s; rewrite copy_visit_eq;
    pose proof (R_step rel) as Hs;
    match goal with |- context [copy_entry E rel ?n s] =>
      specialize (Hs n s); destruct (copy_entry E rel n s) as [s1 disabled] end;
    simpl in Hs; try exact Hs.
  destruct disabled; [exact Hs|].
  eapply R_trans; [exact Hs|]. apply copy_walk_rel_of_visits; assumption.
Qed.

Lemma copy_walk_rel (rel : path) (cs : list (string * node)) (s : state) :
  R s (copy_walk E rel cs s).
Proof.
  apply copy_walk_rel_of_visits. apply Forall_forall. intros kv _. apply copy_visit_rel.
Qed.

Lemma copy_from_source_rel (source : node) (s : state) :
  R s (copy_from_source E source s).
Proof.
  unfold copy_from_source. destruct (entries_of source); [apply copy_walk_rel|apply R_refl].
Qed.
End CopyStageRelation.

Ltac break_step :=
  repeat match goal with
    | |- context [match ?x with _ => _ end] => destruct x eqn:?
    end.

(** ** The synced-entries list and its counters *)

Lemma decide_copy_stats (E : env) (rel : path) (m : FileMetadata) (s : state) :
  stats (fst (decide_copy E rel m s)) = stats s.
Proof.
  unfold decide_copy, try_op. break_step; reflexivity.
Qed.

Lemma perform_copy_delta (E : env) (rel : path) (e : node) (m : FileMetadata) (s : state) :
  step_delta (stats s) (stats (perform_copy E rel e m s)).
Proof.
  unfold step_delta, perform_copy, try_op. break_step; simpl; eauto 7.
Qed.

Lemma copy_directory_delta (E : env) (rel : path) (m : FileMetadata) (s : state) :
  step_delta (stats s) (stats (fst (copy_directory E rel m s))).
Proof.
  unfold step_delta, copy_directory, try_op. break_step; simpl; eauto 7.
Qed.

Lemma copy_entry_delta (E : env) (rel : path) (e : node) (s : state) :
  step_delta (stats s) (stats (fst (copy_entry E rel e s))).
Proof.
  unfold copy_entry.
  destruct (collect_entry E (src_root E ++ rel) (iter_depth rel) e) as [m|];
    [|left; repeat split].
  destruct (S_ISLNK (mode m)); [left; repeat split|].
  destruct (relative_fails E (src_root E ++ rel)); [left; repeat split|].
  destruct (S_ISDIR (mode m)).
  { apply (copy_directory_delta E rel m (set_stats inc_scanned s)). }
  destruct (negb (S_ISREG (mode m))); [left; repeat split|].
  pose proof (decide_copy_stats E rel m (set_stats inc_scanned s)) as Hd.
  destruct (decide_copy E rel m (set_stats inc_scanned s)) as [s1 [[|]|]]; simpl in Hd |- *.
  - pose proof (perform_copy_delta E rel e m s1) as Hp. rewrite Hd in Hp. exact Hp.
  - rewrite Hd. left; repeat split.
  - rewrite Hd. left; repeat split.
Qed.

Lemma step_delta_balanced (t t' : SyncStats) :
  step_delta t t' -> balanced t -> balanced t'.
Proof.
  unfold step_delta, balanced.
  intros [(-> & -> & ->)|[(m & -> & -> & ->)|(m & -> & -> & ->)]] H;
    rewrite ?length_app; simpl; lia.
Qed.

Lemma same_synced_refl (t : SyncStats) : same_synced t t.
Proof. repeat split. Qed.

Lemma same_synced_trans (t1 t2 t3 : SyncStats) :
  same_synced t1 t2 -> same_synced t2 t3 -> same_synced t1 t3.
Proof. unfold same_synced. intros (-> & -> & ->) (-> & -> & ->). repeat split. Qed.

Lemma remove_candidate_same_synced (E : env) (c : RemovalCandidate) (s : state) :
  same_synced (stats s) (stats (remove_candidate E c s)).
Proof.
  unfold remove_candidate, try_op. break_step; repeat split.
Qed.

Lemma remove_candidates_same_synced (E : env) (l : list RemovalCandidate) :
  forall s, same_synced (stats s) (stats (remove_candidates E l s)).
Proof.
  unfold remove_candidates.
  induction l as [|c l IH]; intros s; simpl; [apply same_synced_refl|].
  eapply same_synced_trans; [apply remove_candidate_same_synced|apply IH].
Qed.

Lemma prune_destination_same_synced (E : env) (source : node) (s : state) :
  same_synced (stats s) (stats (prune_destination E source s)).
Proof.
  unfold prune_destination. destruct (discover E source (dst s)) as [lines candidates].
  apply (remove_candidates_same_synced E (sort_candidates candidates)
           (mkState (dst s) (stats s) (out s ++ lines) (ticks s))).
Qed.

Lemma same_synced_balanced (t t' : SyncStats) :
  same_synced t t' -> balanced t -> balanced t'.
Proof. unfold same_synced, balanced. intros (-> & -> & ->). trivial. Qed.

Lemma copy_from_source_balanced (E : env) (source : node) (s : state) :
  balanced (stats s) -> balanced (stats (copy_from_source E source s)).
Proof.
  apply (copy_from_source_rel E (fun s s' => balanced (stats s) -> balanced (stats s'))).
  - auto.
  - auto.
  - intros rel e s0. apply step_delta_balanced, copy_entry_delta.
Qed.

(** C10. The statistics that [synchronize] returns have as many synced
    entries as [files_copied + directories_created]; every iteration of the
    copy stage either leaves the list and both counters alone or appends one
    entry and increments exactly one of the two, so the equality holds after
    each iteration; the prune stage changes none of the three. *)
Theorem synced_entries_balanced (E : env) :
  (forall options w t d o,
      synchronize E options w = Returned t d o -> balanced t) /\
  (forall rel e s, step_delta (stats s) (stats (fst (copy_entry E rel e s)))) /\
  (forall rel e s,
      balanced (stats s) -> balanced (stats (fst (copy_entry E rel e s)))) /\
  (forall source s, same_synced (stats s) (stats (prune_destination E source s))).
Proof.
  split; [|split; [|split]].
  - intros options w t d o. unfold synchronize.
    destruct (validate_inputs w); [discriminate|].
    destruct (ensure_destination_root E w) as [[[d0 lines] [|]]|]; try discriminate.
    destruct (w_src w) as [source|]; [|discriminate].
    intros H; injection H as <- _ _.
    set (s0 := mkState d0 empty_stats _ 1).
    assert (Hc : balanced (stats (copy_from_source E source s0)))
      by (apply copy_from_source_balanced; reflexivity).
    destruct (remove_extraneous options); [|exact Hc].
    eapply same_synced_balanced; [apply prune_destination_same_synced|exact Hc].
  - apply copy_entry_delta.
  - intros rel e s. apply step_delta_balanced, copy_entry_delta.
  - apply prune_destination_same_synced.
Qed.

Lemma synced_entries_balanced_witness :
  match synchronize scenario_env (mkOptions true) scenario_world with
  | Returned t _ _ => balanced t /\ files_copied t = 2
  | Thrown _ _ => False
  end.
Proof.
  pose proof (proj1 (synced_entries_balanced scenario_env) (mkOptions true) scenario_world) as H.
  destruct (synchronize scenario_env (mkOptions true) scenario_world) as [t d o|f o] eqn:Hrun.
  - split; [exact (H t d o eq_refl)|].
    vm_compute in Hrun. injection Hrun as <- _ _. reflexivity.
  - vm_compute in Hrun. discriminate.
Defined.

(** ** Discovery of removal candidates *)

Lemma prune_visit_eq (E : env) (source : node) (rel : path) (e : node) (a : discovery) :
  prune_visit E source rel e a =
  let '(r, disabled) := prune_entry E source rel e in
  match e with
  | Dir _ cs => if disabled then note r a else prune_walk E source rel cs (note r a)
  | _ => note r a
  end.
Proof.
  destruct e; try reflexivity.
  simpl. destruct (prune_entry E source rel (Dir st entries)) as [r disabled].
  destruct disabled; [reflexivity|].
  generalize (note r a). induction entries as [|[name c] l IH]; intros a2; [reflexivity|].
  simpl. apply IH.
Qed.

(** What every iteration of the discovery loop preserves, the walk
    preserves. *)
Section DiscoveryInvariant.
Variable E : env.
Variable source : node.
Variable P : discovery -> Prop.
Hypothesis P_note :
  forall rel e a, P a -> P (note (fst (prune_entry E source rel e)) a).

Lemma prune_walk_invariant_of_visits (rel : path) (cs : list (string * node)) :
  Forall (fun kv => forall rel a, P a -> P (prune_visit E source rel (snd kv) a)) cs ->
  forall a, P a -> P (prune_walk E source rel cs a).
Proof.
  induction 1 as [|[name c] r Hc _ IH]; intros a Ha; simpl; [exact Ha|].
  apply IH, Hc, Ha.
Qed.

Lemma prune_visit_invariant (e : node) :
  forall rel a, P a -> P (prune_visit E source rel e a).
Proof.
  induction e using node_induction; intros rel a Ha; rewrite prune_visit_eq;
    match goal with |- context [prune_entry E source rel ?n] =>
      pose proof (P_note rel n a Ha) as Hn;
      destruct (prune_entry E source rel n) as [r disabled] end;
    simpl in Hn; try exact Hn.
  destruct disabled; [exact Hn|].
  apply prune_walk_invariant_of_visits; assumption.
Qed.

Lemma discover_invariant (destination : node) :
  P ([], []) -> P (discover E source destination).
Proof.
  intros H0. unfold discover. destruct (entries_of destination) as [cs|]; [|exact H0].
  apply prune_walk_invariant_of_visits; [|exact H0].
  apply Forall_forall. intros kv _. apply prune_visit_invariant.
Qed.
End DiscoveryInvariant.

(** What makes an entry a candidate. *)
Lemma prune_entry_candidate (E : env) (source : node) (rel : path) (e : node)
  (lines : list event) (c : RemovalCandidate) (disabled : bool) :
  prune_entry E source rel e = (lines, Some c, disabled) ->
  c = mkCandidate (dst_root E ++ rel)
        (match e with Dir _ _ => true | _ => false end)
        (path_distance (dst_root E ++ rel)) /\
  lstat_fails E (dst_root E ++ rel) = false /\
  match e with Lnk _ _ | Dangling _ => False | _ => True end /\
  relative_fails E (dst_root E ++ rel) = false /\
  fs_exists source rel = false /\
  lines = [] /\ disabled = false.
Proof.
  unfold prune_entry, collect_entry.
  destruct (lstat_fails E (dst_root E ++ rel)); [discriminate|].
  rewrite islnk_metadata, isdir_metadata.
  destruct e; try discriminate;
    destruct (relative_fails E (dst_root E ++ rel)); try discriminate;
    destruct (fs_exists source rel); try discriminate;
    intros H; inversion H; repeat split.
Qed.


(** ** The order of removal *)

Lemma insert_candidate_perm (c : RemovalCandidate) (l : list RemovalCandidate) :
  Permutation (c :: l) (insert_candidate c l).
Proof.
  induction l as [|d r IH]; simpl; [reflexivity|].
  destruct (cdepth c >? cdepth d); [reflexivity|].
  rewrite perm_swap. constructor. exact IH.
Qed.

Lemma sort_candidates_perm (l : list RemovalCandidate) :
  Permutation l (sort_candidates l).
Proof.
  induction l as [|c r IH]; simpl; [constructor|].
  rewrite <- insert_candidate_perm. constructor. exact IH.
Qed.







(** ** Runs that abort *)






(** ** Failures on single entries do not abort the run *)





(** ** Subsequences *)







(** ** The traversal order *)

Lemma listing_eq (p : path) (e : node) :
  listing p e =
  (p, e) :: match e with Dir _ cs => listing_children p cs | _ => [] end.
Proof.
  destruct e; try reflexivity. simpl. f_equal.
  induction entries as [|[name c] r IH]; [reflexivity|].
  simpl. rewrite IH. reflexivity.
Qed.



Lemma listing_paths_below (e : node) :
  forall p q, In q (map fst (listing p e)) -> exists rest, q = p ++ rest.
Proof.
  induction e using node_induction; intros p q; rewrite listing_eq; simpl;
    try (intros [<-|[]]; exists []; symmetry; apply app_nil_r).
  intros [<-|Hin]; [exists []; symmetry; apply app_nil_r|].
  induction H as [|[name c] r Hc _ IH]; simpl in Hin; [contradiction|].
  rewrite map_app, in_app_iff in Hin. destruct Hin as [Hin|Hin]; [|auto].
  destruct (Hc _ _ Hin) as (rest & ->). exists (name :: rest).
  rewrite <- app_assoc. reflexivity.
Qed.

Lemma listing_children_paths (p : path) (cs : list (string * node)) (q : path) :
  In q (map fst (listing_children p cs)) ->
  exists name rest, In name (map fst cs) /\ q = p ++ name :: rest.
Proof.
  induction cs as [|[name c] r IH]; simpl; [contradiction|].
  rewrite map_app, in_app_iff. intros [Hin|Hin].
  - apply listing_paths_below in Hin as (rest & ->).
    exists name, rest. split; [auto|]. rewrite <- app_assoc. reflexivity.
  - destruct (IH Hin) as (name' & rest & Hn & ->). exists name', rest. auto.
Qed.





(** ** The synced entries are snapshots of the source, in traversal order *)












(** ** One synced entry for each success line *)

Lemma skipn_length_app {A : Type} (l r : list A) : skipn (List.length l) (l ++ r) = r.
Proof. induction l; simpl; auto. Qed.













(** ** The shape of a run that returns *)

Lemma synchronize_returned (E : env) (options : SyncOptions) (w : world)
  (t : SyncStats) (d : node) (o : list event) :
  synchronize E options w = Returned t d o ->
  exists source d0 lines,
    w_src w = Some source /\
    validate_inputs w = None /\
    ensure_destination_root E w = Some (d0, lines, false) /\
    (lines = [] \/ lines = [EvCreatedRoot (dst_root E)]) /\
    t = stats (after_run E options source d0 lines) /\
    d = dst (after_run E options source d0 lines) /\
    o = out (after_run E options source d0 lines).
Proof.
  unfold synchronize.
  destruct (validate_inputs w); [discriminate|].
  destruct (ensure_destination_root E w) as [[[d0 lines] [|]]|] eqn:He; try discriminate.
  destruct (w_src w) as [source|]; [|discriminate].
  intros H. exists source, d0, lines.
  assert (Hl : lines = [] \/ lines = [EvCreatedRoot (dst_root E)]).
  { unfold ensure_destination_root in He.
    destruct (negb (root_exists (w_dst w))); destruct (w_dst w);
      try destruct (mkdir_fails E (dst_root E)); try discriminate;
      inversion He; auto. }
  unfold after_run, after_copy, start_state, total_steps.
  destruct (remove_extraneous options); injection H as <- <- <-; repeat split; auto.
Qed.






(** ** Directory listings *)

Lemma lookup_replace_same (c : string) (v : node) (cs : list (string * node)) :
  lookup c cs <> None -> lookup c (replace c v cs) = Some v.
Proof.
  induction cs as [|[k x] r IH]; simpl; [congruence|].
  destruct (String.eqb c k) eqn:Hk; simpl; rewrite Hk; auto.
Qed.

Lemma lookup_replace_other (c k : string) (v : node) (cs : list (string * node)) :
  k <> c -> lookup k (replace c v cs) = lookup k cs.
Proof.
  intros Hne. induction cs as [|[k' x] r IH]; simpl; [reflexivity|].
  destruct (String.eqb c k') eqn:Hk; simpl.
  - apply String.eqb_eq in Hk. subst k'.
    destruct (String.eqb k c) eqn:Hkc; [apply String.eqb_eq in Hkc; contradiction|reflexivity].
  - rewrite IH. reflexivity.
Qed.


Lemma lookup_delete_other (c k : string) (cs : list (string * node)) :
  k <> c -> lookup k (delete c cs) = lookup k cs.
Proof.
  intros Hne. unfold delete. induction cs as [|[k' x] r IH]; simpl; [reflexivity|].
  destruct (String.eqb c k') eqn:Hk; simpl.
  - apply String.eqb_eq in Hk. subst k'.
    destruct (String.eqb k c) eqn:Hkc; [apply String.eqb_eq in Hkc; contradiction|exact IH].
  - rewrite IH. reflexivity.
Qed.


Lemma lookup_app_other (c k : string) (v : node) (cs : list (string * node)) :
  k <> c -> lookup k (cs ++ [(c, v)]) = lookup k cs.
Proof.
  intros Hne. induction cs as [|[k' x] r IH]; simpl.
  - destruct (String.eqb k c) eqn:Hkc; [apply String.eqb_eq in Hkc; contradiction|reflexivity].
  - destruct (String.eqb k k'); [reflexivity|exact IH].
Qed.



(** ** Rebuilding a directory *)

Lemma on_dir_entries (f : list (string * node) -> option (list (string * node)))
  (n n' : node) :
  on_dir f n = Some n' ->
  exists cs cs', entries_of n = Some cs /\ f cs = Some cs' /\ entries_of n' = Some cs'.
Proof.
  revert n'. unfold entries_of.
  induction n using node_induction; intros n'; simpl; try discriminate.
  - destruct (f cs) as [cs'|] eqn:Hf; [|discriminate].
    intros He; injection He as <-. exists cs, cs'. simpl. auto.
  - destruct (on_dir f n) as [m|] eqn:Hm; [|discriminate].
    intros He; injection He as <-. simpl. apply IHn. reflexivity.
Qed.


Lemma on_dir_shallow (f : list (string * node) -> option (list (string * node)))
  (n n' : node) :
  on_dir f n = Some n' -> shallow n' = shallow n.
Proof.
  destruct n; simpl; try discriminate.
  - destruct (f entries); simpl; [|discriminate]. intros H; injection H as <-. reflexivity.
  - destruct (on_dir f n); simpl; [|discriminate]. intros H; injection H as <-. reflexivity.
Qed.

Lemma lresolve_cons (n : node) (c : string) (p : path) (cs : list (string * node)) :
  entries_of n = Some cs ->
  lresolve n (c :: p) = match lookup c cs with Some ch => lresolve ch p | None => None end.
Proof. intros H. simpl. rewrite H. reflexivity. Qed.

(** ** Prefixes of paths *)

Lemma prefix_nil (q : path) : prefix [] q.
Proof. exists q. reflexivity. Qed.

Lemma prefix_cons (a b : string) (p q : path) :
  prefix (a :: p) (b :: q) <-> a = b /\ prefix p q.
Proof.
  unfold prefix. split.
  - intros (rest & H). injection H as -> ->. eauto.
  - intros (-> & rest & ->). exists rest. reflexivity.
Qed.

Lemma prefix_of_nil (p : path) : prefix p [] -> p = [].
Proof. intros (rest & H). destruct p; [reflexivity|discriminate]. Qed.



Lemma prefix_app (p rest : path) : prefix p (p ++ rest).
Proof. exists rest. reflexivity. Qed.


(** ** Entries kept by an operation *)

Lemma kept_refl (m : node) : kept m m.
Proof. repeat split; auto. Qed.

Lemma kept_trans (a b c : node) : kept a b -> kept b c -> kept a c.
Proof.
  unfold kept. intros (H1 & H2 & H3) (H4 & H5 & H6).
  split; [congruence|]. split; auto.
Qed.

Lemma same_at_refl (P : Prop) (n : node) (q : path) : same_at P n n q.
Proof. unfold same_at. destruct (lresolve n q); auto using kept_refl. Qed.

Lemma same_at_trans (P : Prop) (a b c : node) (q : path) :
  same_at P a b q -> same_at P b c q -> same_at P a c q.
Proof.
  unfold same_at.
  destruct (lresolve a q), (lresolve b q), (lresolve c q); try tauto.
  intros [K1 E1] [K2 E2]. split; [eapply kept_trans; eassumption|].
  intros HP. rewrite (E2 HP). auto.
Qed.

Lemma same_at_weaken (P Q : Prop) (n n' : node) (q : path) :
  (Q -> P) -> same_at P n n' q -> same_at Q n n' q.
Proof.
  unfold same_at. intros HQP.
  destruct (lresolve n q), (lresolve n' q); tauto.
Qed.

Lemma on_dir_kept (f : list (string * node) -> option (list (string * node)))
  (n n' : node) :
  on_dir f n = Some n' -> kept n n'.
Proof.
  intros H. split; [eapply on_dir_shallow; eassumption|].
  apply on_dir_entries in H as (cs & cs' & _ & _ & H).
  split; intros _; [|congruence].
  unfold entries_of in H. destruct (follow n'); [discriminate|discriminate].
Qed.

(** An operation at [p] that changes only the name it is applied to keeps
    every entry that is not at or below [p], and leaves an entry alone
    unless it is an ancestor of [p]. *)
Lemma at_parent_same_at
  (g : string -> list (string * node) -> option (list (string * node)))
  (Hg : local_change g) (p : path) :
  forall n n' q,
    at_parent p g n = Some n' -> ~ prefix p q ->
    same_at (~ prefix q p) n n' q.
Proof.
  induction p as [|c p' IH]; intros n n' q Hop Hq; [discriminate|].
  destruct q as [|k q'].
  { unfold same_at. simpl. split.
    - simpl in Hop. destruct p'; eapply on_dir_kept; eassumption.
    - intros Hn. exfalso. apply Hn, prefix_nil. }
  simpl in Hop. destruct p' as [|c2 p2].
  - apply on_dir_entries in Hop as (cs & cs' & He & Hf & He').
    unfold same_at. rewrite (lresolve_cons _ _ _ _ He), (lresolve_cons _ _ _ _ He').
    assert (Hk : k <> c).
    { intros ->. apply Hq. apply prefix_cons. split; [reflexivity|apply prefix_nil]. }
    rewrite (Hg c cs cs' k Hf Hk).
    destruct (lookup k cs) as [ch|]; [|exact I].
    apply (same_at_refl _ ch q').
  - apply on_dir_entries in Hop as (cs & cs' & He & Hf & He').
    destruct (lookup c cs) as [ch|] eqn:Hc; [|discriminate].
    destruct (at_parent (c2 :: p2) g ch) as [ch'|] eqn:Hch; [|discriminate].
    injection Hf as <-.
    unfold same_at. rewrite (lresolve_cons _ _ _ _ He), (lresolve_cons _ _ _ _ He').
    destruct (String.eqb k c) eqn:Hkc.
    + apply String.eqb_eq in Hkc. subst k.
      rewrite lookup_replace_same by congruence. rewrite Hc.
      assert (Hq' : ~ prefix (c2 :: p2) q').
      { intros H. apply Hq. apply prefix_cons. auto. }
      pose proof (IH ch ch' q' Hch Hq') as Hs.
      eapply same_at_weaken; [|exact Hs].
      intros Hn Hp. apply Hn. apply prefix_cons. auto.
    + apply String.eqb_neq in Hkc. rewrite lookup_replace_other by exact Hkc.
      destruct (lookup k cs) as [chk|]; [|exact I].
      apply (same_at_refl _ chk q').
Qed.

(** ** Removal *)

Lemma delete_local : local_change (fun c cs => Some (delete c cs)).
Proof.
  intros c cs cs' k H Hk. injection H as <-. apply lookup_delete_other, Hk.
Qed.

Lemma lresolve_app (n : node) (p q : path) :
  lresolve n (p ++ q) =
  match lresolve n p with Some m => lresolve m q | None => None end.
Proof.
  revert n. induction p as [|c p IH]; intros n; simpl; [reflexivity|].
  destruct (entries_of n) as [cs|]; [|reflexivity].
  destruct (lookup c cs) as [ch|]; [apply IH|reflexivity].
Qed.





Lemma removed_same_at (p : path) (n n' : node) (q : path) :
  removed p n n' -> ~ prefix p q -> same_at (~ prefix q p) n n' q.
Proof.
  intros [[_ ->]|H] Hq; [apply same_at_refl|].
  eapply at_parent_same_at; [apply delete_local|exact H|exact Hq].
Qed.

Lemma remove_all_entry_removed (p : path) (n n' : node) (k : Z) :
  remove_all_entry p n = Some (n', k) -> removed p n n'.
Proof.
  unfold remove_all_entry, removed. destruct (lresolve n p) as [m|].
  - destruct (unlink p n); simpl; [|discriminate]. intros H; injection H as <- _. auto.
  - intros H; injection H as <- _. auto.
Qed.

Lemma remove_entry_removed (p : path) (n n' : node) (b : bool) :
  remove_entry p n = Some (n', b) -> removed p n n'.
Proof.
  unfold remove_entry, removed. destruct (lresolve n p) as [m|].
  - destruct m as [| st [|] | | |]; try discriminate;
      destruct (unlink p n); simpl; try discriminate; intros H; injection H as <- _; auto.
  - intros H; injection H as <- _. auto.
Qed.


(** ** What the discovery finds *)







Lemma candidates_have_no_counterpart (E : env) (source destination : node) :
  Forall (fun c => exists rel, cpath c = dst_root E ++ rel /\ fs_exists source rel = false)
    (snd (discover E source destination)).
Proof.
  apply (discover_invariant E source
           (fun a => Forall (fun c => exists rel, cpath c = dst_root E ++ rel /\
                                                  fs_exists source rel = false) (snd a)));
    [|constructor].
  intros rel e a Ha. unfold note.
  destruct (prune_entry E source rel e) as [[lines [c|]] disabled] eqn:He;
    simpl; [|exact Ha].
  apply prune_entry_candidate in He as (-> & _ & _ & _ & Hex & _).
  apply Forall_app; split; [exact Ha|]. constructor; [|constructor].
  exists rel. auto.
Qed.

(** ** The removal loop *)

Lemma rel_of_destination (E : env) (rel : path) : rel_of E (dst_root E ++ rel) = rel.
Proof. unfold rel_of. apply skipn_length_app. Qed.

Lemma remove_candidate_step (E : env) (c : RemovalCandidate) (s : state) :
  dst (remove_candidate E c s) = dst s \/
  removed (rel_of E (cpath c)) (dst s) (dst (remove_candidate E c s)).
Proof.
  unfold remove_candidate, try_op.
  destruct (is_directory c); destruct (remove_fails E (cpath c)); simpl; auto.
  - destruct (remove_all_entry (rel_of E (cpath c)) (dst s)) as [[d k]|] eqn:H; simpl; auto.
    right. eapply remove_all_entry_removed; eassumption.
  - destruct (remove_entry (rel_of E (cpath c)) (dst s)) as [[d [|]]|] eqn:H; simpl; auto;
      right; eapply remove_entry_removed; eassumption.
Qed.






Lemma fs_exists_prefix (n : node) (p q : path) :
  prefix p q -> fs_exists n q = true -> fs_exists n p = true.
Proof.
  intros (rest & ->). unfold fs_exists, resolve. rewrite lresolve_app.
  destruct (lresolve n p) as [m|]; [|discriminate].
  destruct rest as [|c rest]; [simpl; trivial|].
  simpl. unfold entries_of. destruct (follow m); [reflexivity|discriminate].
Qed.

(** Entries that have a counterpart in the source are kept by the loop. *)
Lemma remove_candidates_same_at (E : env) (source : node) (l : list RemovalCandidate)
  (q : path) :
  Forall (fun c => exists rel, cpath c = dst_root E ++ rel /\ fs_exists source rel = false) l ->
  fs_exists source q = true ->
  forall s, same_at False (dst s) (dst (remove_candidates E l s)) q.
Proof.
  unfold remove_candidates. intros Hall Hq.
  induction Hall as [|c l (rel & Hc & Hex) _ IH]; intros s; simpl; [apply same_at_refl|].
  eapply same_at_trans; [|apply IH].
  destruct (remove_candidate_step E c s) as [->|Hr]; [apply same_at_refl|].
  rewrite Hc, rel_of_destination in Hr.
  eapply same_at_weaken; [|eapply removed_same_at; [exact Hr|]]; [tauto|].
  intros Hp. apply (fs_exists_prefix source rel q Hp) in Hq. congruence.
Qed.










(** ** Induction over the copy stage along the traversal order *)

Section CopyStageListing.
Variable E : env.
Variable R : list (path * node) -> state -> state -> Prop.
Hypothesis R_nil : forall s, R [] s s.
Hypothesis R_app :
  forall l1 l2 s1 s2 s3, R l1 s1 s2 -> R l2 s2 s3 -> R (l1 ++ l2) s1 s3.
Hypothesis R_leaf :
  forall rel e s,
    is_dir e = false -> R [(src_root E ++ rel, e)] s (fst (copy_entry E rel e s)).
Hypothesis R_disabled :
  forall rel st cs s l,
    snd (copy_entry E rel (Dir st cs) s) = true ->
    R ((src_root E ++ rel, Dir st cs) :: l) s (fst (copy_entry E rel (Dir st cs) s)).
Hypothesis R_enter :
  forall rel st cs s l s3,
    snd (copy_entry E rel (Dir st cs) s) = false ->
    R l (fst (copy_entry E rel (Dir st cs) s)) s3 ->
    R ((src_root E ++ rel, Dir st cs) :: l) s s3.

Lemma copy_walk_listing_of_visits (cs : list (string * node)) :
  Forall (fun kv => forall rel s,
            R (listing (src_root E ++ rel) (snd kv)) s (copy_visit E rel (snd kv) s)) cs ->
  forall rel s, R (listing_children (src_root E ++ rel) cs) s (copy_walk E rel cs s).
Proof.
  induction 1 as [|[name c] r Hc _ IH]; intros rel s; simpl; [apply R_nil|].
  eapply R_app; [|apply IH].
  specialize (Hc (rel ++ [name]) s). simpl in Hc. rewrite app_assoc in Hc. exact Hc.
Qed.

Lemma copy_visit_listing (e : node) :
  forall rel s, R (listing (src_root E ++ rel) e) s (copy_visit E rel e s).
Proof.
  induction e using node_induction; intros rel s; rewrite copy_visit_eq, listing_eq;
    try (match goal with |- context [copy_entry E rel ?n s] =>
           pose proof (R_leaf rel n s eq_refl) as Hs;
           destruct (copy_entry E rel n s) as [s1 disabled] end; exact Hs).
  pose proof (R_disabled rel st cs s (listing_children (src_root E ++ rel) cs)) as Hd.
  pose proof (R_enter rel st cs s (listing_children (src_root E ++ rel) cs)) as He.
  destruct (copy_entry E rel (Dir st cs) s) as [s1 [|]]; simpl in Hd, He; [auto|].
  apply He; [reflexivity|]. apply copy_walk_listing_of_visits. assumption.
Qed.

Lemma copy_from_source_listing (source : node) (s : state) :
  R (source_listing E source) s (copy_from_source E source s).
Proof.
  unfold copy_from_source, source_listing.
  destruct (entries_of source) as [cs|]; [|apply R_nil].
  pose proof (copy_walk_listing_of_visits cs) as H.
  specialize (H ltac:(apply Forall_forall; intros kv _; apply copy_visit_listing) [] s).
  rewrite app_nil_r in H. exact H.
Qed.
End CopyStageListing.

(** ** Entries kept by the copy stage *)

Lemma keeps_refl (n : node) (q : path) : keeps n n q.
Proof. intros m Hm. exists m. split; [exact Hm|apply kept_refl]. Qed.

Lemma keeps_trans (a b c : node) (q : path) : keeps a b q -> keeps b c q -> keeps a c q.
Proof.
  intros H1 H2 m Hm. destruct (H1 m Hm) as (m1 & Hm1 & K1).
  destruct (H2 m1 Hm1) as (m2 & Hm2 & K2). exists m2. split; [exact Hm2|].
  eapply kept_trans; eassumption.
Qed.

Lemma same_at_keeps (P : Prop) (n n' : node) (q : path) :
  same_at P n n' q -> keeps n n' q.
Proof.
  unfold same_at, keeps. intros H m Hm. rewrite Hm in H.
  destruct (lresolve n' q) as [m'|]; [|contradiction]. exists m'. tauto.
Qed.

Lemma removed_keeps (p : path) (n n' : node) (q : path) :
  removed p n n' -> ~ prefix p q -> keeps n n' q.
Proof. intros Hr Hq. eapply same_at_keeps, removed_same_at; eassumption. Qed.

Lemma write_entry_local (new : stat) : local_change (write_entry new).
Proof.
  intros c cs cs' k H Hk. unfold write_entry in H.
  destruct (lookup c cs) as [ch|].
  - destruct (overwrite new ch); simpl in H; [|discriminate].
    injection H as <-. apply lookup_replace_other, Hk.
  - injection H as <-. apply lookup_app_other, Hk.
Qed.

Lemma copy_file_to_keeps (src : stat) (t : timespec) (p : path) (n n' : node) (q : path) :
  copy_file_to src t p n = Some n' -> ~ prefix p q -> keeps n n' q.
Proof.
  intros H Hq. eapply same_at_keeps, at_parent_same_at; [apply write_entry_local| |];
    eassumption.
Qed.

Lemma mkdirs_keeps (t : timespec) (p : path) :
  forall n n' q, mkdirs t p n = Some n' -> keeps n n' q.
Proof.
  induction p as [|c p' IH]; intros n n' q Hop; simpl in Hop.
  - destruct (follow n) as [[| | | |]|]; try discriminate.
    injection Hop as <-. apply keeps_refl.
  - pose proof (on_dir_kept _ _ _ Hop) as Hk.
    apply on_dir_entries in Hop as (cs & cs' & He & Hf & He').
    intros m Hm. destruct q as [|k q'].
    { injection Hm as <-. exists n'. split; [reflexivity|exact Hk]. }
    rewrite (lresolve_cons _ _ _ _ He) in Hm. rewrite (lresolve_cons _ _ _ _ He').
    destruct (lookup k cs) as [chk|] eqn:Hlk; [|discriminate].
    destruct (String.eqb k c) eqn:Hkc.
    + apply String.eqb_eq in Hkc. subst k. rewrite Hlk in Hf.
      destruct (mkdirs t p' chk) as [ch'|] eqn:Hch; simpl in Hf; [|discriminate].
      injection Hf as <-. rewrite lookup_replace_same by congruence.
      apply (IH chk ch' q' Hch m Hm).
    + apply String.eqb_neq in Hkc.
      destruct (lookup c cs) as [ch|].
      * destruct (mkdirs t p' ch); simpl in Hf; [|discriminate].
        injection Hf as <-. rewrite lookup_replace_other, Hlk by exact Hkc.
        exists m. split; [exact Hm|apply kept_refl].
      * destruct (mkdirs t p' (Dir (fresh_stat 493 0 t) [])); simpl in Hf; [|discriminate].
        injection Hf as <-. rewrite lookup_app_other, Hlk by exact Hkc.
        exists m. split; [exact Hm|apply kept_refl].
Qed.

Lemma decide_copy_keeps (E : env) (rel : path) (m : FileMetadata) (s : state) (q : path) :
  ~ prefix rel q -> keeps (dst s) (dst (fst (decide_copy E rel m s))) q.
Proof.
  intros Hq. unfold decide_copy, try_op.
  destruct (negb (fs_exists (dst s) rel)); [apply keeps_refl|].
  destruct (negb (fs_is_regular_file (dst s) rel)).
  { destruct (remove_fails E (dst_root E ++ rel)); [apply keeps_refl|]. simpl dst.
    destruct (remove_all_entry rel (dst s)) as [[d k]|] eqn:H; [|apply keeps_refl].
    simpl. eapply removed_keeps; [eapply remove_all_entry_removed; eassumption|exact Hq]. }
  destruct (collect_metadata E (dst_root E) (dst s) rel (iter_depth rel)) as [dm|];
    [|apply keeps_refl].
  destruct (S_ISLNK (mode dm)); [|apply keeps_refl].
  destruct (remove_fails E (dst_root E ++ rel)); [apply keeps_refl|]. simpl dst.
  destruct (remove_entry rel (dst s)) as [[d k]|] eqn:H; [|apply keeps_refl].
  simpl. eapply removed_keeps; [eapply remove_entry_removed; eassumption|exact Hq].
Qed.

Lemma perform_copy_keeps (E : env) (rel : path) (e : node) (m : FileMetadata) (s : state)
  (q : path) :
  ~ prefix rel q -> keeps (dst s) (dst (perform_copy E rel e m s)) q.
Proof.
  intros Hq. unfold perform_copy, try_op.
  destruct (mkdir_fails E (dst_root E ++ removelast rel)); [apply keeps_refl|].
  destruct (mkdirs (now E s) (removelast rel) (dst s)) as [d1|] eqn:H1; [|apply keeps_refl].
  assert (K1 : keeps (dst s) d1 q) by (eapply mkdirs_keeps; eassumption).
  destruct (copy_fails E (dst_root E ++ rel)); [exact K1|]. simpl dst.
  destruct (copy_file_to (node_stat e) (now E (set_dst d1 s)) rel d1) as [d2|] eqn:H2;
    [|exact K1].
  simpl. eapply keeps_trans; [exact K1|]. eapply copy_file_to_keeps; eassumption.
Qed.

Lemma copy_directory_keeps (E : env) (rel : path) (m : FileMetadata) (s : state) (q : path) :
  keeps (dst s) (dst (fst (copy_directory E rel m s))) q.
Proof.
  unfold copy_directory, try_op.
  destruct (negb (fs_exists (dst s) rel)); [|apply keeps_refl].
  destruct (mkdir_fails E (dst_root E ++ rel)); [apply keeps_refl|].
  destruct (mkdirs (now E s) rel (dst s)) as [d|] eqn:H; [|apply keeps_refl].
  simpl. eapply mkdirs_keeps; eassumption.
Qed.

Lemma copy_entry_keeps (E : env) (rel : path) (e : node) (s : state) (q : path) :
  (forall st, e = Reg st -> ~ prefix rel q) ->
  keeps (dst s) (dst (fst (copy_entry E rel e s))) q.
Proof.
  intros Hq. unfold copy_entry, collect_entry.
  destruct (lstat_fails E (src_root E ++ rel)); [apply keeps_refl|].
  rewrite islnk_metadata, isdir_metadata, isreg_metadata.
  destruct e as [st| | | |]; try apply keeps_refl;
    destruct (relative_fails E (src_root E ++ rel)); try apply keeps_refl.
  - specialize (Hq st eq_refl). cbn [negb].
    set (m := metadata_of (src_root E ++ rel) (iter_depth rel) (Reg st)).
    pose proof (decide_copy_keeps E rel m (set_stats inc_scanned s) q Hq) as Hd.
    destruct (decide_copy E rel m (set_stats inc_scanned s)) as [s1 [[|]|]];
      simpl in Hd |- *; try exact Hd.
    eapply keeps_trans; [exact Hd|]. apply perform_copy_keeps, Hq.
  - apply (copy_directory_keeps E rel _ (set_stats inc_scanned s)).
Qed.

Lemma copy_from_source_keeps (E : env) (source : node) (s : state) (q : path) :
  ~ replaced_by_source E source q ->
  keeps (dst s) (dst (copy_from_source E source s)) q.
Proof.
  unfold replaced_by_source. intros Hq.
  apply (copy_from_source_listing E
           (fun l s s' => (forall p st, In (src_root E ++ p, Reg st) l -> ~ prefix p q) ->
                          keeps (dst s) (dst s') q)).
  - intros s0 _. apply keeps_refl.
  - intros l1 l2 s1 s2 s3 H1 H2 Hl. eapply keeps_trans; [apply H1|apply H2];
      intros p st Hin; apply (Hl p st), in_or_app; auto.
  - intros rel e s0 _ Hl. apply copy_entry_keeps. intros st ->.
    apply (Hl rel st). left. reflexivity.
  - intros rel st cs s0 l _ Hl. apply copy_entry_keeps. discriminate.
  - intros rel st cs s0 l s3 _ H Hl. eapply keeps_trans.
    + apply (copy_entry_keeps E rel (Dir st cs) s0 q). discriminate.
    + apply H. intros p st' Hin. apply (Hl p st'). right. exact Hin.
  - intros p st Hin Hp. apply Hq. eauto.
Qed.

(** ** Runs that retain extraneous entries *)

Lemma perform_copy_deleted (E : env) (rel : path) (e : node) (m : FileMetadata) (s : state) :
  files_deleted (stats (perform_copy E rel e m s)) = files_deleted (stats s).
Proof. unfold perform_copy, try_op. break_step; reflexivity. Qed.

Lemma copy_directory_deleted (E : env) (rel : path) (m : FileMetadata) (s : state) :
  files_deleted (stats (fst (copy_directory E rel m s))) = files_deleted (stats s).
Proof. unfold copy_directory, try_op. break_step; reflexivity. Qed.

Lemma copy_entry_deleted (E : env) (rel : path) (e : node) (s : state) :
  files_deleted (stats (fst (copy_entry E rel e s))) = files_deleted (stats s).
Proof.
  unfold copy_entry.
  destruct (collect_entry E (src_root E ++ rel) (iter_depth rel) e) as [m|]; [|reflexivity].
  destruct (S_ISLNK (mode m)); [reflexivity|].
  destruct (relative_fails E (src_root E ++ rel)); [reflexivity|].
  destruct (S_ISDIR (mode m)).
  { apply (copy_directory_deleted E rel m (set_stats inc_scanned s)). }
  destruct (negb (S_ISREG (mode m))); [reflexivity|].
  pose proof (decide_copy_stats E rel m (set_stats inc_scanned s)) as Hd.
  destruct (decide_copy E rel m (set_stats inc_scanned s)) as [s1 [[|]|]]; simpl in Hd |- *;
    rewrite ?perform_copy_deleted, Hd; reflexivity.
Qed.

Lemma copy_from_source_deleted (E : env) (source : node) (s : state) :
  files_deleted (stats (copy_from_source E source s)) = files_deleted (stats s).
Proof.
  apply (copy_from_source_rel E
           (fun s s' => files_deleted (stats s') = files_deleted (stats s))).
  - reflexivity.
  - intros s1 s2 s3 H1 H2. congruence.
  - intros rel e s0. apply copy_entry_deleted.
Qed.




(** ** Trees in which names are unique *)













(** ** Induction over the discovery along the traversal order *)

Section DiscoveryListing.
Variable E : env.
Variable source : node.
Variable R : list (path * node) -> discovery -> discovery -> Prop.
Hypothesis R_skip : forall l a, R l a a.
Hypothesis R_app :
  forall l1 l2 a1 a2 a3, R l1 a1 a2 -> R l2 a2 a3 -> R (l1 ++ l2) a1 a3.
Hypothesis R_entry :
  forall rel e a, R [(dst_root E ++ rel, e)] a (note (fst (prune_entry E source rel e)) a).



End DiscoveryListing.




(** ** Symbolic links *)










(** ** Running twice *)


(** ** Operations keep trees tidy *)
















(** ** What the operations of the copy stage leave at their path *)









(** ** Warnings *)

Lemma warnings_app (o o' : list event) : warnings (o ++ o') = (warnings o + warnings o')%nat.
Proof. unfold warnings. rewrite filter_app, length_app. reflexivity. Qed.

Lemma warnings_say (ev : event) (s : state) :
  warnings (out (say ev s)) = (warnings (out s) + if is_warning ev then 1 else 0)%nat.
Proof. simpl. rewrite warnings_app. unfold warnings at 2. simpl. destruct (is_warning ev); reflexivity. Qed.





(** ** What one iteration of the copy stage establishes *)

Ltac count_warnings :=
  simpl; unfold warnings; rewrite ?filter_app, ?length_app; simpl; lia.





(** ** The copy stage brings the destination up to date *)






(** ** A copy stage with nothing to do *)





(** ** Entries after a removal were there before *)










(** ** The second run *)


Lemma source_listing_below_root (E : env) (source : node) (p : path) (e : node) :
  In (src_root E ++ p, e) (source_listing E source) -> p <> [].
Proof.
  unfold source_listing. destruct (entries_of source) as [cs|]; [|contradiction].
  intros Hin ->. apply (in_map fst) in Hin. simpl in Hin.
  apply listing_children_paths in Hin as (name & rest & _ & Heq).
  apply app_inv_head in Heq. discriminate.
Qed.

Lemma root_not_replaced (E : env) (source : node) : ~ replaced_by_source E source [].
Proof.
  intros (p & st & Hp & Hin). apply prefix_of_nil in Hp. subst p.
  apply (source_listing_below_root E source [] _ Hin). reflexivity.
Qed.

Lemma keeps_root (n n' : node) :
  keeps n n' [] -> entries_of n <> None -> entries_of n' <> None.
Proof.
  intros Hk He. destruct (Hk n eq_refl) as (m' & Hm & _ & _ & Hdir).
  injection Hm as <-. auto.
Qed.

Lemma prune_destination_keeps (E : env) (source : node) (s : state) (q : path) :
  fs_exists source q = true ->
  keeps (dst s) (dst (prune_destination E source s)) q.
Proof.
  intros Hex. unfold prune_destination.
  pose proof (candidates_have_no_counterpart E source (dst s)) as Hall.
  destruct (discover E source (dst s)) as [lines candidates]. simpl in Hall.
  apply (same_at_keeps False).
  apply (remove_candidates_same_at E source (sort_candidates candidates) q
           ltac:(eapply Permutation_Forall; [apply sort_candidates_perm|exact Hall]) Hex
           (mkState (dst s) (stats s) (out s ++ lines) (ticks s))).
Qed.


Lemma remove_candidate_warnings (E : env) (c : RemovalCandidate) (s : state) :
  (warnings (out s) <= warnings (out (remove_candidate E c s)))%nat.
Proof. unfold remove_candidate, try_op. break_step; count_warnings. Qed.

Lemma remove_candidates_warnings (E : env) (l : list RemovalCandidate) :
  forall s, (warnings (out s) <= warnings (out (remove_candidates E l s)))%nat.
Proof.
  unfold remove_candidates. induction l as [|c l IH]; intros s; simpl; [lia|].
  etransitivity; [apply remove_candidate_warnings|apply IH].
Qed.

Lemma prune_destination_warnings (E : env) (source : node) (s : state) :
  (warnings (out s) <= warnings (out (prune_destination E source s)))%nat.
Proof.
  unfold prune_destination. destruct (discover E source (dst s)) as [lines candidates].
  etransitivity; [|apply remove_candidates_warnings]. simpl. rewrite warnings_app. lia.
Qed.



Lemma entries_of_root_checks (d : node) :
  entries_of d <> None -> fs_exists d [] = true /\ fs_is_directory d [] = true.
Proof.
  unfold entries_of, fs_exists, fs_is_directory, resolve. simpl.
  destruct (follow d) as [[| | | |]|]; intros H; try (exfalso; apply H; reflexivity); auto.
Qed.



(** * Further properties of the code *)

(** ** The command line *)

Lemma scan_arguments_spec (args : list string) :
  forall keep positional,
    scan_arguments args keep positional =
    if existsb is_help (filter (fun a => negb (is_keep_extra a)) args) then None
    else Some (keep || existsb is_keep_extra args,
               positional ++ filter (fun a => negb (is_keep_extra a)) args).
Proof.
  induction args as [|arg rest IH]; intros keep positional; simpl.
  - rewrite orb_false_r, app_nil_r. reflexivity.
  - destruct (is_keep_extra arg) eqn:Hk; simpl.
    + rewrite IH. rewrite orb_true_r. reflexivity.
    + destruct (is_help arg) eqn:Hh; simpl; [reflexivity|].
      rewrite IH, <- app_assoc. reflexivity.
Qed.

Lemma help_is_not_keep_extra (arg : string) : is_help arg = true -> is_keep_extra arg = false.
Proof.
  unfold is_help, is_keep_extra. rewrite orb_true_iff, !String.eqb_eq.
  intros [->| ->]; reflexivity.
Qed.

Lemma existsb_help_filter (args : list string) :
  existsb is_help (filter (fun a => negb (is_keep_extra a)) args) = existsb is_help args.
Proof.
  induction args as [|arg rest IH]; simpl; [reflexivity|].
  destruct (is_keep_extra arg) eqn:Hk; simpl; rewrite IH; [|reflexivity].
  destruct (is_help arg) eqn:Hh; [|reflexivity].
  rewrite (help_is_not_keep_extra _ Hh) in Hk. discriminate.
Qed.

Lemma parse_arguments_short (args : list string) :
  (List.length args < 2)%nat -> parse_arguments args = Usage 1.
Proof.
  intros Hl. unfold parse_arguments.
  destruct (Z.ltb_spec (Z.of_nat (List.length args) + 1) 3); [reflexivity|lia].
Qed.

Lemma parse_arguments_long (args : list string) :
  (2 <= List.length args)%nat ->
  parse_arguments args =
  if existsb is_help args then Usage 0
  else match filter (fun a => negb (is_keep_extra a)) args with
       | [source; destination] =>
           Run (mkOptions (negb (existsb is_keep_extra args))) source destination
       | _ => BadArguments
       end.
Proof.
  intros Hl. unfold parse_arguments.
  destruct (Z.ltb_spec (Z.of_nat (List.length args) + 1) 3); [lia|].
  rewrite scan_arguments_spec, existsb_help_filter.
  destruct (existsb is_help args); reflexivity.
Qed.

(** X1. With at least two arguments, a help flag anywhere among them makes
    [main] print the usage and return 0 without running anything; with
    fewer than two arguments [main] returns 1, also when the one argument
    is a help flag. *)
Theorem help_flag_wins (view : string -> string -> env * world) (args : list string) :
  (parse_arguments args = Usage 0 <->
   (2 <= List.length args)%nat /\ existsb is_help args = true) /\
  ((List.length args < 2)%nat -> parse_arguments args = Usage 1 /\ main view args = 1) /\
  ((2 <= List.length args)%nat -> existsb is_help args = true -> main view args = 0).
Proof.
  split; [|split].
  - split.
    + intros Hp. destruct (Nat.lt_ge_cases (List.length args) 2) as [Hl|Hl].
      * rewrite (parse_arguments_short _ Hl) in Hp. discriminate.
      * split; [exact Hl|]. rewrite (parse_arguments_long _ Hl) in Hp.
        destruct (existsb is_help args); [reflexivity|].
        destruct (filter _ args) as [|a [|b [|c r]]]; discriminate.
    + intros [Hl Hh]. rewrite (parse_arguments_long _ Hl), Hh. reflexivity.
  - intros Hl. split; [apply parse_arguments_short, Hl|].
    unfold main. rewrite (parse_arguments_short _ Hl). reflexivity.
  - intros Hl Hh. unfold main. rewrite (parse_arguments_long _ Hl), Hh. reflexivity.
Qed.

Lemma help_flag_wins_witness :
  main scenario_view ["src"%string; "--help"%string; "dst"%string; "more"%string] = 0.
Proof.
  apply (proj2 (proj2 (help_flag_wins scenario_view
                         ["src"%string; "--help"%string; "dst"%string; "more"%string])));
    [simpl; lia|reflexivity].
Defined.

(** X2. Without a help flag, [main] runs the syncer exactly when the
    arguments other than [--keep-extra] are two, taken in order as source
    and destination; extraneous entries are removed unless [--keep-extra]
    occurs, wherever and however often; the exit code is 0 when
    [synchronize] returns and 1 when it throws or when the positional
    arguments are not two. *)
Theorem arguments_select_the_run (view : string -> string -> env * world)
  (args : list string) :
  (2 <= List.length args)%nat ->
  existsb is_help args = false ->
  let positional := filter (fun a => negb (is_keep_extra a)) args in
  (forall source destination,
      positional = [source; destination] ->
      parse_arguments args =
        Run (mkOptions (negb (existsb is_keep_extra args))) source destination /\
      main view args =
        if thrown (synchronize (fst (view source destination))
                     (mkOptions (negb (existsb is_keep_extra args)))
                     (snd (view source destination)))
        then 1 else 0) /\
  (List.length positional <> 2%nat ->
   parse_arguments args = BadArguments /\ main view args = 1).
Proof.
  intros Hl Hh positional. unfold main. rewrite (parse_arguments_long _ Hl), Hh.
  fold positional. split.
  - intros source destination ->. split; [reflexivity|].
    destruct (synchronize _ _ _); reflexivity.
  - intros Hn. destruct positional as [|a [|b [|c r]]]; try (split; reflexivity).
    exfalso. apply Hn. reflexivity.
Qed.

Lemma arguments_select_the_run_witness :
  parse_arguments ["src"%string; "--keep-extra"%string; "dst"%string; "--keep-extra"%string]
  = Run (mkOptions false) "src"%string "dst"%string.
Proof.
  apply (proj1 (arguments_select_the_run scenario_view
                  ["src"%string; "--keep-extra"%string; "dst"%string; "--keep-extra"%string]
                  ltac:(simpl; lia) eq_refl) "src"%string "dst"%string eq_refl).
Defined.

(** ** Which failure is reported *)



(** ** What [collect_metadata] reports *)

Lemma u64_range (x : Z) : is_u64 (u64 x).
Proof. unfold is_u64, u64. apply Z.mod_pos_bound. reflexivity. Qed.

Lemma metadata_in_range (p : path) (d : Z) (n : node) : fields_in_range (metadata_of p d n).
Proof. unfold fields_in_range. simpl. repeat split; apply u64_range. Qed.



(** ** Accounting of the copy stage *)

Lemma decide_copy_warns (E : env) (rel : path) (m : FileMetadata) (s : state) :
  (warnings (out s) <= warnings (out (fst (decide_copy E rel m s))))%nat /\
  (snd (decide_copy E rel m s) = None ->
   (warnings (out s) < warnings (out (fst (decide_copy E rel m s))))%nat).
Proof.
  unfold decide_copy, try_op.
  break_step; simpl; split; try discriminate; intros; count_warnings.
Qed.

Lemma perform_copy_counts (E : env) (rel : path) (e : node) (m : FileMetadata) (s : state) :
  (stats (perform_copy E rel e m s) = record_copy m (stats s) /\
   (warnings (out s) <= warnings (out (perform_copy E rel e m s)))%nat) \/
  (stats (perform_copy E rel e m s) = stats s /\
   (warnings (out s) < warnings (out (perform_copy E rel e m s)))%nat).
Proof.
  unfold perform_copy, try_op.
  break_step; simpl; try (left; split; [reflexivity|count_warnings]);
    right; split; try reflexivity; count_warnings.
Qed.

Lemma copy_directory_counts (E : env) (rel : path) (m : FileMetadata) (s : state) :
  let r := copy_directory E rel m s in
  (snd r = false /\
   (stats (fst r) = stats s \/ stats (fst r) = record_directory m (stats s)) /\
   (warnings (out s) <= warnings (out (fst r)))%nat) \/
  (stats (fst r) = stats s /\ (warnings (out s) < warnings (out (fst r)))%nat).
Proof.
  unfold copy_directory, try_op.
  break_step; simpl;
    try (right; split; [reflexivity|count_warnings]);
    left; (split; [reflexivity|]); (split; [auto|count_warnings]).
Qed.

Lemma copy_entry_counts (E : env) (rel : path) (e : node) (s : state) :
  let r := copy_entry E rel e s in
  (warnings (out s) <= warnings (out (fst r)))%nat /\
  exists a b c,
      0 <= a /\ 0 <= b /\ 0 <= c /\ a + b + c <= 1 /\
      adds a b c (stats s) (stats (fst r)) /\
      (is_dir e = true -> a = 0 /\ b = 0) /\
      (is_dir e = false -> c = 0) /\
      (warnings (out (fst r)) = warnings (out s) ->
       (is_dir e = true -> snd r = false) /\
       (is_dir e = false -> a + b = 1)).
Proof.
  assert (Hfail : forall ev flag,
             is_warning ev = true ->
             let r := (say ev (set_stats inc_scanned s), flag) in
             (warnings (out s) <= warnings (out (fst r)))%nat /\
             exists a b c,
      0 <= a /\ 0 <= b /\ 0 <= c /\ a + b + c <= 1 /\
      adds a b c (stats s) (stats (fst r)) /\
      (is_dir e = true -> a = 0 /\ b = 0) /\
      (is_dir e = false -> c = 0) /\
      (warnings (out (fst r)) = warnings (out s) ->
       (is_dir e = true -> snd r = false) /\
       (is_dir e = false -> a + b = 1))).
  { intros ev flag Hev. cbv zeta. cbn [fst snd]. rewrite warnings_say, Hev. simpl out.
    split; [lia|]. exists 0, 0, 0. unfold adds. simpl.
    repeat split; try lia. }
  assert (Hskip : forall ev flag,
             is_warning ev = false -> is_dir e = false ->
             let r := (set_stats inc_skipped (say ev (set_stats inc_scanned s)), flag) in
             (warnings (out s) <= warnings (out (fst r)))%nat /\
             exists a b c,
      0 <= a /\ 0 <= b /\ 0 <= c /\ a + b + c <= 1 /\
      adds a b c (stats s) (stats (fst r)) /\
      (is_dir e = true -> a = 0 /\ b = 0) /\
      (is_dir e = false -> c = 0) /\
      (warnings (out (fst r)) = warnings (out s) ->
       (is_dir e = true -> snd r = false) /\
       (is_dir e = false -> a + b = 1))).
  { intros ev flag Hev Hd. cbv zeta. cbn [fst snd].
    assert (Hw : warnings (out (set_stats inc_skipped (say ev (set_stats inc_scanned s))))
                 = warnings (out s)).
    { change (out (set_stats inc_skipped (say ev (set_stats inc_scanned s))))
        with (out (say ev s)). rewrite warnings_say, Hev. lia. }
    rewrite Hw. split; [lia|]. exists 0, 1, 0. unfold adds. simpl.
    repeat split; try lia; congruence. }
  unfold copy_entry, collect_entry.
  destruct (lstat_fails E (src_root E ++ rel)); [apply Hfail; reflexivity|].
  rewrite islnk_metadata, isdir_metadata, isreg_metadata.
  destruct e as [st| st cs | | |]; try (apply Hskip; reflexivity);
    destruct (relative_fails E (src_root E ++ rel)); try (apply Hfail; reflexivity);
    try (apply Hskip; reflexivity).
  - cbn [negb].
    set (m := metadata_of (src_root E ++ rel) (iter_depth rel) (Reg st)).
    pose proof (decide_copy_stats E rel m (set_stats inc_scanned s)) as Hst.
    pose proof (decide_copy_warns E rel m (set_stats inc_scanned s)) as [Hw1 Hw2].
    destruct (decide_copy E rel m (set_stats inc_scanned s)) as [s1 o].
    simpl in Hst, Hw1, Hw2. destruct o as [[|]|]; cbv zeta; cbn [fst snd].
    + destruct (perform_copy_counts E rel (Reg st) m s1) as [[Hp Hwp]|[Hp Hwp]];
        rewrite Hp, Hst; (split; [lia|]).
      * exists 1, 0, 0. unfold adds. simpl. repeat split; try lia; discriminate.
      * exists 0, 0, 0. unfold adds. simpl. repeat split; try lia; discriminate.
    + split; [exact Hw1|]. exists 0, 1, 0. unfold adds. simpl. rewrite Hst. simpl.
      repeat split; try lia; discriminate.
    + specialize (Hw2 eq_refl). split; [lia|]. rewrite Hst.
      exists 0, 0, 0. unfold adds. simpl. repeat split; try lia; discriminate.
  - set (m := metadata_of (src_root E ++ rel) (iter_depth rel) (Dir st cs)).
    pose proof (copy_directory_counts E rel m (set_stats inc_scanned s)) as Hd.
    cbv zeta in Hd |- *.
    destruct Hd as [(Hflag & [Hs|Hs] & Hw)|(Hs & Hw)]; rewrite Hs;
      (split; [simpl in Hw; lia|]).
    + exists 0, 0, 0. unfold adds. simpl. repeat split; try lia; try discriminate; auto.
    + exists 0, 0, 1. unfold adds. simpl. repeat split; try lia; try discriminate; auto.
    + exists 0, 0, 0. unfold adds. simpl. simpl in Hw. repeat split; try lia; discriminate.
Qed.

Lemma entries_in_cons (pe : path * node) (l : list (path * node)) :
  entries_in (pe :: l) = 1 + entries_in l.
Proof. unfold entries_in. simpl List.length. lia. Qed.

Lemma directories_in_cons (pe : path * node) (l : list (path * node)) :
  directories_in (pe :: l) = (if is_dir (snd pe) then 1 else 0) + directories_in l.
Proof. unfold directories_in. simpl. destruct (is_dir (snd pe)); simpl List.length; lia. Qed.

Lemma others_in_cons (pe : path * node) (l : list (path * node)) :
  others_in (pe :: l) = (if is_dir (snd pe) then 0 else 1) + others_in l.
Proof. unfold others_in. simpl. destruct (is_dir (snd pe)); simpl List.length; lia. Qed.

Lemma entries_in_app (l1 l2 : list (path * node)) :
  entries_in (l1 ++ l2) = entries_in l1 + entries_in l2.
Proof. unfold entries_in. rewrite length_app. lia. Qed.

Lemma directories_in_app (l1 l2 : list (path * node)) :
  directories_in (l1 ++ l2) = directories_in l1 + directories_in l2.
Proof. unfold directories_in. rewrite filter_app, length_app. lia. Qed.

Lemma others_in_app (l1 l2 : list (path * node)) :
  others_in (l1 ++ l2) = others_in l1 + others_in l2.
Proof. unfold others_in. rewrite filter_app, length_app. lia. Qed.

Lemma entries_in_split (l : list (path * node)) :
  entries_in l = directories_in l + others_in l.
Proof.
  induction l as [|pe l IH]; [reflexivity|].
  rewrite entries_in_cons, directories_in_cons, others_in_cons.
  destruct (is_dir (snd pe)); lia.
Qed.

Lemma directories_in_nonneg (l : list (path * node)) : 0 <= directories_in l.
Proof. unfold directories_in. lia. Qed.

Lemma counts_nil (s : state) : counts [] s s.
Proof.
  split; [lia|]. exists 0, 0, 0, 0. unfold entries_in, others_in, directories_in. simpl.
  repeat split; lia.
Qed.

Lemma counts_app (l1 l2 : list (path * node)) (s1 s2 s3 : state) :
  counts l1 s1 s2 -> counts l2 s2 s3 -> counts (l1 ++ l2) s1 s3.
Proof.
  intros (W1 & n1 & a1 & b1 & c1 & H1) (W2 & n2 & a2 & b2 & c2 & H2).
  split; [lia|]. exists (n1 + n2), (a1 + a2), (b1 + b2), (c1 + c2).
  rewrite entries_in_app, others_in_app, directories_in_app.
  destruct H1 as (? & ? & ? & ? & ? & ? & ? & ? & ? & ? & ? & C1).
  destruct H2 as (? & ? & ? & ? & ? & ? & ? & ? & ? & ? & ? & C2).
  repeat split; try lia; intros Hw;
    destruct (C1 ltac:(lia)); destruct (C2 ltac:(lia)); lia.
Qed.

Lemma counts_entry (E : env) (rel : path) (e : node) (s : state)
  (l : list (path * node)) :
  (is_dir e = false -> l = []) ->
  (snd (copy_entry E rel e s) = false -> l = []) ->
  counts ((src_root E ++ rel, e) :: l) s (fst (copy_entry E rel e s)).
Proof.
  intros Hl Hd.
  destruct (copy_entry_counts E rel e s) as (W & a & b & c & Ha & Hb & Hc & Hsum & Hadd
                                             & Hdir & Hleaf & Hclean).
  cbv zeta in *. split; [exact W|]. exists 1, a, b, c.
  rewrite entries_in_cons, others_in_cons, directories_in_cons. simpl snd.
  destruct Hadd as (A1 & A2 & A3 & A4).
  pose proof (directories_in_nonneg l) as Hn.
  assert (0 <= entries_in l) by (unfold entries_in; lia).
  assert (0 <= others_in l) by (unfold others_in; lia).
  destruct (is_dir e) eqn:Hk.
  - destruct (Hdir eq_refl) as (-> & ->).
    assert (Hc' : warnings (out (fst (copy_entry E rel e s))) = warnings (out s) ->
                  entries_in l = 0 /\ others_in l = 0).
    { intros Hw. destruct (Hclean Hw) as (Hflag & _).
      rewrite (Hd (Hflag eq_refl)). split; reflexivity. }
    repeat split; try lia; intros Hw; destruct (Hc' Hw); lia.
  - rewrite (Hl eq_refl). rewrite (Hleaf eq_refl) in *.
    unfold entries_in, others_in, directories_in. simpl.
    repeat split; try lia; intros Hw; destruct (Hclean Hw) as (_ & Hx);
      specialize (Hx eq_refl); lia.
Qed.

Lemma copy_from_source_counts (E : env) (source : node) (s : state) :
  counts (source_listing E source) s (copy_from_source E source s).
Proof.
  apply (copy_from_source_listing E counts).
  - apply counts_nil.
  - apply counts_app.
  - intros rel e s0 He. apply counts_entry; auto.
  - intros rel st cs s0 l Hdis. apply counts_entry; [discriminate|congruence].
  - intros rel st cs s0 l s3 _ Hl.
    apply (counts_app [(src_root E ++ rel, Dir st cs)] l s0
             (fst (copy_entry E rel (Dir st cs) s0)) s3); [|exact Hl].
    apply counts_entry; auto.
Qed.

Lemma count_nodes_positive (n : node) : 0 < count_nodes n.
Proof.
  induction n as [st|st cs IH|st t IH|st|st] using node_induction;
    cbn [count_nodes]; try lia.
  assert (Hk : 0 <= (fix go (l : list (string * node)) : Z :=
                       match l with
                       | [] => 0
                       | (_, c) :: r => count_nodes c + go r
                       end) cs).
  { induction IH as [|[name c] r Hc _ IHr]; [lia|]. simpl in Hc. lia. }
  lia.
Qed.

Lemma same_but_deleted_refl (t : SyncStats) : same_but_deleted t t.
Proof. unfold same_but_deleted. repeat split; lia. Qed.

Lemma same_but_deleted_trans (t1 t2 t3 : SyncStats) :
  same_but_deleted t1 t2 -> same_but_deleted t2 t3 -> same_but_deleted t1 t3.
Proof.
  unfold same_but_deleted.
  intros (-> & -> & -> & -> & -> & -> & H1) (-> & -> & -> & -> & -> & -> & H2).
  repeat split; lia.
Qed.

Lemma remove_candidate_deleted (E : env) (c : RemovalCandidate) (s : state) :
  same_but_deleted (stats s) (stats (remove_candidate E c s)) /\
  (files_deleted (stats (remove_candidate E c s)) = files_deleted (stats s) ->
   dst (remove_candidate E c s) = dst s).
Proof.
  unfold remove_candidate, try_op, remove_all_entry, remove_entry, same_but_deleted.
  destruct (is_directory c); destruct (remove_fails E (cpath c)); simpl;
    try (repeat split; lia);
    destruct (lresolve (dst s) (rel_of E (cpath c))) as [m|] eqn:Hl; simpl;
    try (repeat split; lia).
  - destruct (unlink (rel_of E (cpath c)) (dst s)); simpl;
      pose proof (count_nodes_positive m); repeat split; lia.
  - destruct m as [st|st [|x cs]| | |]; simpl; try (repeat split; lia);
      destruct (unlink (rel_of E (cpath c)) (dst s)); simpl; repeat split; lia.
Qed.

Lemma remove_candidates_deleted (E : env) (l : list RemovalCandidate) :
  forall s,
    same_but_deleted (stats s) (stats (remove_candidates E l s)) /\
    (files_deleted (stats (remove_candidates E l s)) = files_deleted (stats s) ->
     dst (remove_candidates E l s) = dst s).
Proof.
  unfold remove_candidates.
  induction l as [|c l IH]; intros s; simpl.
  - split; [apply same_but_deleted_refl|reflexivity].
  - destruct (remove_candidate_deleted E c s) as (H1 & D1).
    destruct (IH (remove_candidate E c s)) as (H2 & D2).
    split; [eapply same_but_deleted_trans; eassumption|].
    intros Heq. unfold same_but_deleted in H1, H2.
    rewrite D2, D1; [reflexivity| |]; lia.
Qed.

Lemma prune_destination_deleted (E : env) (source : node) (s : state) :
  same_but_deleted (stats s) (stats (prune_destination E source s)) /\
  (files_deleted (stats (prune_destination E source s)) = files_deleted (stats s) ->
   dst (prune_destination E source s) = dst s).
Proof.
  unfold prune_destination. destruct (discover E source (dst s)) as [lines candidates].
  apply (remove_candidates_deleted E (sort_candidates candidates)
           (mkState (dst s) (stats s) (out s ++ lines) (ticks s))).
Qed.

Lemma start_state_warnings (E : env) (options : SyncOptions) (d : node)
  (lines : list event) :
  lines = [] \/ lines = [EvCreatedRoot (dst_root E)] ->
  warnings (out (start_state options d lines)) = 0%nat.
Proof. intros [->| ->]; reflexivity. Qed.

Lemma after_run_deleted (E : env) (options : SyncOptions) (source d : node)
  (lines : list event) :
  same_but_deleted (stats (after_copy E options source d lines))
    (stats (after_run E options source d lines)) /\
  (warnings (out (after_copy E options source d lines))
   <= warnings (out (after_run E options source d lines)))%nat /\
  (files_deleted (stats (after_run E options source d lines))
   = files_deleted (stats (after_copy E options source d lines)) ->
   dst (after_run E options source d lines) = dst (after_copy E options source d lines)).
Proof.
  unfold after_run. destruct (remove_extraneous options).
  - set (s := say _ _).
    destruct (prune_destination_deleted E source s) as (H & D).
    pose proof (prune_destination_warnings E source s) as W.
    subst s. simpl stats in *. simpl dst in *. rewrite warnings_say in W. simpl in W.
    split; [exact H|]. split; [lia|exact D].
  - simpl. split; [apply same_but_deleted_refl|]. split; [|reflexivity].
    rewrite warnings_app. lia.
Qed.

Lemma after_copy_counts (E : env) (options : SyncOptions) (source d : node)
  (lines : list event) :
  counts (source_listing E source) (start_state options d lines)
    (after_copy E options source d lines).
Proof. apply copy_from_source_counts. Qed.

(** X5. The counters of a finished run account for the entries of the
    source: copies, skips and created directories are counted at most once
    per scanned entry, no more entries are scanned than the source tree
    holds, only entries that are not directories are counted as copied or
    skipped, and only directories as created. *)
Theorem counters_bounded_by_source_listing (E : env) (options : SyncOptions) (w : world)
  (source : node) (t : SyncStats) (d : node) (o : list event) :
  w_src w = Some source ->
  synchronize E options w = Returned t d o ->
  accounted t /\
  0 <= files_deleted t /\
  entries_scanned t <= entries_in (source_listing E source) /\
  files_copied t + files_skipped t <= others_in (source_listing E source) /\
  directories_created t <= directories_in (source_listing E source).
Proof.
  intros Hs Hrun.
  destruct (synchronize_returned E options w t d o Hrun)
    as (source' & d0 & lines & Hs' & _ & _ & _ & -> & _ & _).
  rewrite Hs in Hs'. injection Hs' as <-. unfold accounted.
  destruct (after_run_deleted E options source d0 lines)
    as ((-> & -> & -> & -> & _ & _ & Hdel) & _ & _).
  destruct (after_copy_counts E options source d0 lines)
    as (_ & n & a & b & c & Ha & Hb & Hc & Hsum & Hn & Hab & Hcd & -> & -> & -> & -> & _).
  assert (Hd0 : files_deleted (stats (after_copy E options source d0 lines)) = 0).
  { unfold after_copy. rewrite copy_from_source_deleted. reflexivity. }
  unfold start_state.
  cbn [stats empty_stats entries_scanned files_copied files_skipped directories_created].
  repeat split; lia.
Qed.

Lemma counters_bounded_by_source_listing_witness :
  accounted (outcome_stats scenario_outcome) /\
  0 <= files_deleted (outcome_stats scenario_outcome) /\
  entries_scanned (outcome_stats scenario_outcome) <= 5 /\
  files_copied (outcome_stats scenario_outcome)
  + files_skipped (outcome_stats scenario_outcome) <= 3 /\
  directories_created (outcome_stats scenario_outcome) <= 2.
Proof.
  exact (counters_bounded_by_source_listing scenario_env (mkOptions true) scenario_world
           scenario_source (outcome_stats scenario_outcome) (outcome_dst scenario_outcome)
           (outcome_out scenario_outcome) eq_refl ltac:(vm_compute; reflexivity)).
Defined.



(** ** The byte total *)

Lemma regular_bytes_app (l : list FileMetadata) (m : FileMetadata) :
  regular_bytes (l ++ [m]) = regular_bytes l + (if S_ISREG (mode m) then size m else 0).
Proof. induction l as [|x l IH]; simpl; [lia|]. rewrite IH. lia. Qed.

Lemma u64_add_l (a b : Z) : u64 (u64 a + b) = u64 (a + b).
Proof. unfold u64. apply Z.add_mod_idemp_l. lia. Qed.

Lemma record_copy_bytes (m : FileMetadata) (t : SyncStats) :
  S_ISREG (mode m) = true -> bytes_match t -> bytes_match (record_copy m t).
Proof.
  unfold bytes_match. intros Hm Ht. simpl. rewrite regular_bytes_app, Hm, Ht.
  apply u64_add_l.
Qed.

Lemma record_directory_bytes (m : FileMetadata) (t : SyncStats) :
  S_ISREG (mode m) = false -> bytes_match t -> bytes_match (record_directory m t).
Proof.
  unfold bytes_match. intros Hm Ht. simpl. rewrite regular_bytes_app, Hm, Ht.
  f_equal. lia.
Qed.

Lemma copy_entry_bytes (E : env) (rel : path) (e : node) (s : state) :
  bytes_match (stats s) -> bytes_match (stats (fst (copy_entry E rel e s))).
Proof.
  intros Hb. unfold copy_entry, collect_entry.
  destruct (lstat_fails E (src_root E ++ rel)); [exact Hb|].
  rewrite islnk_metadata, isdir_metadata, isreg_metadata.
  destruct e as [st| st cs | | |]; try exact Hb;
    destruct (relative_fails E (src_root E ++ rel)); try exact Hb.
  - cbn [negb].
    set (m := metadata_of (src_root E ++ rel) (iter_depth rel) (Reg st)).
    pose proof (decide_copy_stats E rel m (set_stats inc_scanned s)) as Hst.
    destruct (decide_copy E rel m (set_stats inc_scanned s)) as [s1 o].
    simpl in Hst. destruct o as [[|]|]; cbn [fst].
    + destruct (perform_copy_counts E rel (Reg st) m s1) as [[Hp _]|[Hp _]];
        rewrite Hp, Hst; [|exact Hb].
      apply (record_copy_bytes m (inc_scanned (stats s))); [|exact Hb].
      apply isreg_metadata.
    + simpl. unfold bytes_match. rewrite Hst. exact Hb.
    + unfold bytes_match. rewrite Hst. exact Hb.
  - set (m := metadata_of (src_root E ++ rel) (iter_depth rel) (Dir st cs)).
    pose proof (copy_directory_counts E rel m (set_stats inc_scanned s)) as Hd.
    cbv zeta in Hd.
    destruct Hd as [(_ & [Hs|Hs] & _)|(Hs & _)]; rewrite Hs; try exact Hb.
    apply (record_directory_bytes m (inc_scanned (stats s))); [|exact Hb].
    apply isreg_metadata.
Qed.

Lemma copy_from_source_bytes (E : env) (source : node) (s : state) :
  bytes_match (stats s) -> bytes_match (stats (copy_from_source E source s)).
Proof.
  apply (copy_from_source_rel E
           (fun s s' => bytes_match (stats s) -> bytes_match (stats s'))); auto.
  intros rel e s0. apply copy_entry_bytes.
Qed.

(** X7. The byte total of a finished run is the sum, in 64-bit unsigned
    arithmetic, of the sizes recorded for the regular files among the
    synchronized entries; directories recorded there add nothing. *)
Theorem bytes_copied_sums_synced_files (E : env) (options : SyncOptions) (w : world)
  (t : SyncStats) (d : node) (o : list event) :
  synchronize E options w = Returned t d o ->
  bytes_copied t = u64 (regular_bytes (synced_entries t)).
Proof.
  intros Hrun.
  destruct (synchronize_returned E options w t d o Hrun)
    as (source & d0 & lines & _ & _ & _ & _ & -> & _ & _).
  destruct (after_run_deleted E options source d0 lines)
    as ((_ & _ & _ & _ & -> & -> & _) & _ & _).
  apply (copy_from_source_bytes E source (start_state options d0 lines)). reflexivity.
Qed.

Lemma bytes_copied_sums_synced_files_witness :
  bytes_copied (outcome_stats scenario_outcome) = 8.
Proof.
  exact (bytes_copied_sums_synced_files scenario_env (mkOptions true) scenario_world
           (outcome_stats scenario_outcome) (outcome_dst scenario_outcome)
           (outcome_out scenario_outcome) ltac:(vm_compute; reflexivity)).
Defined.

(** ** What a run leaves in the destination *)











(** ** A report without work *)

Lemma decide_copy_skip (E : env) (rel : path) (m : FileMetadata) (s : state) :
  snd (decide_copy E rel m s) = Some false -> fst (decide_copy E rel m s) = s.
Proof.
  unfold decide_copy, try_op. break_step; simpl; try discriminate; reflexivity.
Qed.

Lemma copy_directory_unchanged (E : env) (rel : path) (m : FileMetadata) (s : state) :
  dst (fst (copy_directory E rel m s)) = dst s \/
  directories_created (stats (fst (copy_directory E rel m s)))
  = directories_created (stats s) + 1.
Proof.
  unfold copy_directory, try_op. break_step; simpl; auto.
Qed.

Lemma copy_entry_unchanged (E : env) (rel : path) (e : node) (s : state) :
  let r := copy_entry E rel e s in
  dst (fst r) = dst s \/
  (warnings (out s) < warnings (out (fst r)))%nat \/
  files_copied (stats (fst r)) = files_copied (stats s) + 1 \/
  directories_created (stats (fst r)) = directories_created (stats s) + 1.
Proof.
  cbv zeta. unfold copy_entry.
  destruct (collect_entry E (src_root E ++ rel) (iter_depth rel) e) as [m|]; [|auto].
  destruct (S_ISLNK (mode m)); [auto|].
  destruct (relative_fails E (src_root E ++ rel)); [auto|].
  destruct (S_ISDIR (mode m)).
  { destruct (copy_directory_unchanged E rel m (set_stats inc_scanned s)) as [H|H]; auto. }
  destruct (negb (S_ISREG (mode m))); [auto|].
  pose proof (decide_copy_stats E rel m (set_stats inc_scanned s)) as Hst.
  pose proof (decide_copy_warns E rel m (set_stats inc_scanned s)) as [Hw1 Hw2].
  pose proof (decide_copy_skip E rel m (set_stats inc_scanned s)) as Hskip.
  destruct (decide_copy E rel m (set_stats inc_scanned s)) as [s1 [[|]|]];
    simpl in Hst, Hw1, Hw2, Hskip; cbn [fst].
  - destruct (perform_copy_counts E rel e m s1) as [[Hp _]|[_ Hp]].
    + right. right. left. rewrite Hp. simpl. rewrite Hst. reflexivity.
    + right. left. lia.
  - left. rewrite (Hskip eq_refl). reflexivity.
  - right. left. apply Hw2. reflexivity.
Qed.

Lemma quiet_refl (s : state) : quiet s s.
Proof. unfold quiet. repeat split; try lia. Qed.

Lemma quiet_trans (s1 s2 s3 : state) : quiet s1 s2 -> quiet s2 s3 -> quiet s1 s3.
Proof.
  unfold quiet. intros (W1 & A1 & C1 & D1) (W2 & A2 & C2 & D2).
  repeat split; try lia. intros Hw Ha Hc.
  rewrite D2, D1; try reflexivity; lia.
Qed.

Lemma copy_entry_quiet (E : env) (rel : path) (e : node) (s : state) :
  quiet s (fst (copy_entry E rel e s)).
Proof.
  destruct (copy_entry_counts E rel e s)
    as (W & a & b & c & Ha & Hb & Hc & _ & (_ & A & _ & C) & _).
  cbv zeta in *. unfold quiet. repeat split; try lia.
  intros Hw Hcopied Hcreated.
  destruct (copy_entry_unchanged E rel e s) as [H|[H|[H|H]]]; cbv zeta in H;
    [exact H| | |]; lia.
Qed.

Lemma copy_from_source_quiet (E : env) (source : node) (s : state) :
  quiet s (copy_from_source E source s).
Proof.
  apply (copy_from_source_rel E quiet).
  - apply quiet_refl.
  - apply quiet_trans.
  - apply copy_entry_quiet.
Qed.

(** X10. The report accounts for every change: where the destination
    existed and a run prints no warning and reports no copied file, no
    created directory and no deleted entry, the destination tree is
    exactly what it was before the run. *)
Theorem idle_report_means_unchanged_destination (E : env) (options : SyncOptions)
  (w : world) (d0 : node) (t : SyncStats) (d : node) (o : list event) :
  w_dst w = Some d0 ->
  synchronize E options w = Returned t d o ->
  warnings o = 0%nat ->
  files_copied t = 0 ->
  directories_created t = 0 ->
  files_deleted t = 0 ->
  d = d0.
Proof.
  intros Hdst Hrun Hclean Hcopied Hcreated Hdeleted.
  apply synchronize_returned in Hrun
    as (source & d0' & lines & _ & _ & Hroot & Hlines & -> & -> & ->).
  assert (d0' = d0) as ->.
  { unfold ensure_destination_root in Hroot. rewrite Hdst in Hroot.
    destruct (negb (root_exists (Some d0))); [discriminate|]. congruence. }
  destruct (after_run_deleted E options source d0 lines)
    as ((_ & Hc & _ & Hd & _ & _ & Hdel) & W & Hsame).
  destruct (copy_from_source_quiet E source (start_state options d0 lines))
    as (W0 & A0 & C0 & Hquiet).
  fold (after_copy E options source d0 lines) in W0, A0, C0, Hquiet.
  assert (Hd0 : files_deleted (stats (after_copy E options source d0 lines)) = 0).
  { unfold after_copy. rewrite copy_from_source_deleted. reflexivity. }
  rewrite (start_state_warnings E options d0 lines Hlines) in *.
  unfold start_state in A0, C0, Hquiet.
  cbn [stats dst empty_stats files_copied directories_created] in A0, C0, Hquiet.
  rewrite Hsame by lia. apply Hquiet; lia.
Qed.

Lemma idle_report_means_unchanged_destination_witness :
  outcome_dst (synchronize steady_env (mkOptions true)
                 (mkWorld (Some scenario_source) (Some (outcome_dst steady_outcome)) false))
  = outcome_dst steady_outcome.
Proof.
  apply (idle_report_means_unchanged_destination steady_env (mkOptions true)
           (mkWorld (Some scenario_source) (Some (outcome_dst steady_outcome)) false)
           (outcome_dst steady_outcome)
           (outcome_stats (synchronize steady_env (mkOptions true)
              (mkWorld (Some scenario_source) (Some (outcome_dst steady_outcome)) false)))
           _
           (outcome_out (synchronize steady_env (mkOptions true)
              (mkWorld (Some scenario_source) (Some (outcome_dst steady_outcome)) false))));
    vm_compute; reflexivity.
Defined.

(** ** What the stages read of the state *)
















(** ** The destination root *)

Lemma fs_is_directory_entries (d : node) :
  fs_is_directory d [] = true -> entries_of d <> None.
Proof.
  unfold entries_of, fs_is_directory, resolve. simpl.
  destruct (follow d) as [[| | | |]|]; intros H; discriminate.
Qed.

Lemma ensure_destination_root_directory (E : env) (w : world) (d0 : node)
  (lines : list event) (same : bool) :
  validate_inputs w = None ->
  ensure_destination_root E w = Some (d0, lines, same) ->
  entries_of d0 <> None.
Proof.
  unfold validate_inputs, ensure_destination_root. intros Hv He.
  destruct (negb (root_exists (w_src w))); [discriminate|].
  destruct (negb (root_is_directory (w_src w))); [discriminate|].
  destruct (w_dst w) as [d|] eqn:Hd; simpl in *.
  - destruct (fs_exists d []) eqn:Hex; simpl in *; [|discriminate].
    injection He as <- _ _.
    destruct (fs_is_directory d []) eqn:Hdir; [|discriminate].
    apply fs_is_directory_entries. exact Hdir.
  - destruct (mkdir_fails E (dst_root E)); [discriminate|].
    injection He as <- _ _. discriminate.
Qed.

(** X12. A run that returns leaves a directory at the destination root,
    whatever failed on the way, so that the same source and the resulting
    destination pass the input checks of a following run. *)
Theorem destination_root_stays_directory (E : env) (options : SyncOptions) (w : world)
  (t : SyncStats) (d : node) (o : list event) :
  synchronize E options w = Returned t d o ->
  fs_exists d [] = true /\ fs_is_directory d [] = true /\
  validate_inputs (mkWorld (w_src w) (Some d) false) = None.
Proof.
  intros Hrun.
  apply synchronize_returned in Hrun
    as (source & d0 & lines & Hsrc & Hv & Hroot & _ & _ & -> & _).
  assert (Hsrc_root : fs_exists source [] = true).
  { unfold validate_inputs in Hv. rewrite Hsrc in Hv. simpl in Hv.
    destruct (fs_exists source []); [reflexivity|discriminate]. }
  assert (Hcopy : entries_of (dst (after_copy E options source d0 lines)) <> None).
  { apply (keeps_root d0); [|eapply ensure_destination_root_directory; eassumption].
    apply (copy_from_source_keeps E source (start_state options d0 lines) []).
    apply root_not_replaced. }
  assert (Hrun : entries_of (dst (after_run E options source d0 lines)) <> None).
  { unfold after_run. destruct (remove_extraneous options); [|exact Hcopy].
    eapply keeps_root; [apply prune_destination_keeps, Hsrc_root|exact Hcopy]. }
  destruct (entries_of_root_checks _ Hrun) as (Hex & Hdir).
  split; [exact Hex|]. split; [exact Hdir|].
  unfold validate_inputs in *. simpl.
  destruct (negb (root_exists (w_src w))); [discriminate|].
  destruct (negb (root_is_directory (w_src w))); [discriminate|].
  rewrite Hex, Hdir. reflexivity.
Qed.

Lemma destination_root_stays_directory_witness :
  fs_exists (outcome_dst scenario_outcome) [] = true /\
  fs_is_directory (outcome_dst scenario_outcome) [] = true /\
  validate_inputs (mkWorld (Some scenario_source) (Some (outcome_dst scenario_outcome)) false)
  = None.
Proof.
  exact (destination_root_stays_directory scenario_env (mkOptions true) scenario_world
           (outcome_stats scenario_outcome) (outcome_dst scenario_outcome)
           (outcome_out scenario_outcome) ltac:(vm_compute; reflexivity)).
Defined.

(** ** A destination that holds nothing yet *)


















